(** * ProPoSal: proposal store, submission gate, moderation client and views

    A shallow embedding of the core of [src/App.tsx] and
    [src/services/geminiService.ts], and the properties of the specification
    checked against it.

    Conventions of the embedding:
    - a JavaScript string is the list of its UTF-16 code units ([jsstring]);
      literals are written as in the source and decoded by [js];
    - [number] fields that hold ids, counts and epoch milliseconds are
      integers ([Z]);
    - React state is an explicit record ([App.t]); a handler is a function
      from the state (and the inputs of the event) to the next state;
    - [new Date().toISOString()] is the input [now] of the handler that
      calls it. *)

From Stdlib Require Import String Ascii.
From Stdlib Require Import List ZArith NArith Lia Bool.
From Stdlib Require Import Permutation Sorted.
Import ListNotations.

Local Open Scope Z_scope.

(** ** JavaScript strings *)

Definition jsstring := list N.

(** UTF-8 bytes of a source literal to UTF-16 code units. *)
Fixpoint utf16_of_utf8 (bs : list N) : jsstring :=
  match bs with
  | [] => []
  | b0 :: r0 =>
    if (b0 <? 0x80)%N then b0 :: utf16_of_utf8 r0
    else if (b0 <? 0xE0)%N then
      match r0 with
      | b1 :: r1 =>
        N.lor (N.shiftl (N.land b0 0x1F) 6) (N.land b1 0x3F) :: utf16_of_utf8 r1
      | _ => []
      end
    else if (b0 <? 0xF0)%N then
      match r0 with
      | b1 :: b2 :: r2 =>
        N.lor (N.shiftl (N.land b0 0x0F) 12)
              (N.lor (N.shiftl (N.land b1 0x3F) 6) (N.land b2 0x3F))
          :: utf16_of_utf8 r2
      | _ => []
      end
    else
      match r0 with
      | b1 :: b2 :: b3 :: r3 =>
        let cp := N.lor (N.shiftl (N.land b0 0x07) 18)
                   (N.lor (N.shiftl (N.land b1 0x3F) 12)
                     (N.lor (N.shiftl (N.land b2 0x3F) 6) (N.land b3 0x3F))) in
        let v := (cp - 0x10000)%N in
        (0xD800 + N.shiftr v 10)%N :: (0xDC00 + N.land v 0x3FF)%N
          :: utf16_of_utf8 r3
      | _ => []
      end
  end.

Definition js (s : string) : jsstring :=
  utf16_of_utf8 (map N_of_ascii (list_ascii_of_string s)).

(** [a === b] on strings. *)
Definition str_eqb (a b : jsstring) : bool :=
  if list_eq_dec N.eq_dec a b then true else false.

(** Truthiness of a string: only the empty string is falsy. *)
Definition truthy (s : jsstring) : bool :=
  match s with [] => false | _ => true end.

(** [o || d] for an optional string [o]: [undefined] and [""] are falsy. *)
Definition or_else (o : option jsstring) (d : jsstring) : jsstring :=
  match o with
  | Some s => if truthy s then s else d
  | None => d
  end.

(** ** Types of [App.tsx] *)

Inductive Role := student | admin.

Module User.
Record t := mk { id : jsstring; name : jsstring; role : Role;
                   class : option jsstring; email : option jsstring }.
End User.

Module Signature.
Record t := mk { userId : jsstring; userName : jsstring; timestamp : jsstring }.
End Signature.

(** The four literals of [Proposal['status']], in the order of [STATUS_STEPS]. *)
Inductive Status := Received | UnderReview | Coordinating | Resolved.

Definition Status_literal (s : Status) : jsstring :=
  match s with
  | Received => js "受付中"
  | UnderReview => js "検討中"
  | Coordinating => js "先生と調整中"
  | Resolved => js "対応済"
  end.

Definition STATUS_STEPS : list Status := [Received; UnderReview; Coordinating; Resolved].

Module Proposal.
Record t := mk {
    id : Z;
    title : jsstring;
    content : jsstring;
    category : jsstring;
    status : Status;
    adminResponse : jsstring;
    timestamp : jsstring;
    signatures : list Signature.t }.

  (** [{ ...p, signatures: s }] *)
Definition with_signatures (p : t) (s : list Signature.t) : t :=
    mk (id p) (title p) (content p) (category p) (status p) (adminResponse p)
       (timestamp p) s.

  (** [{ ...p, status: st, adminResponse: r }] *)
Definition with_status (p : t) (st : Status) (r : jsstring) : t :=
    mk (id p) (title p) (content p) (category p) st r (timestamp p) (signatures p).
End Proposal.

Module PostForm.
Record t := mk { title : jsstring; content : jsstring; category : jsstring }.
Definition empty : t := mk [] [] [].
End PostForm.

(** The keys of [postForm] that [handleInputChange] accepts. *)
Inductive Field := f_title | f_content | f_category.

(** [AIAnalysisResult] of [geminiService.ts]. *)
Module AIAnalysisResult.
Record t := mk {
    isAppropriate : bool;
    category : jsstring;
    tags : list jsstring;
    refinedTitle : option jsstring;
    refinedContent : option jsstring;
    advice : option jsstring }.
End AIAnalysisResult.

(** The state [aiAnalysis] (when not [null]). *)
Module AiAnalysis.
Record t := mk {
    advice : jsstring;
    loading : bool;
    detectedCategory : option jsstring;
    detectedTags : option (list jsstring) }.
End AiAnalysis.

Inductive View := v_home | v_proposals | v_status | v_login | v_register.

Definition CATEGORY_OTHER : jsstring := js "その他".

(** ** Array helpers *)

(** [Array.prototype.findIndex]: the index of the first element that
    satisfies [f], or [-1]. *)
Fixpoint findIndex_from {A} (f : A -> bool) (l : list A) (i : Z) : Z :=
  match l with
  | [] => -1
  | x :: r => if f x then i else findIndex_from f r (i + 1)
  end.

Definition findIndex {A} (f : A -> bool) (l : list A) : Z := findIndex_from f l 0.

(** [a.splice(i, 1)] on a copy of [a], for [0 <= i]. *)
Definition splice1 {A} (i : Z) (l : list A) : list A :=
  firstn (Z.to_nat i) l ++ skipn (S (Z.to_nat i)) l.

(** [Math.max(...l)] for a non-empty argument list [x :: l]. *)
Definition Math_max (x : Z) (l : list Z) : Z := fold_left Z.max l x.

(** [Number.MAX_SAFE_INTEGER], 2^53 - 1. *)
Definition MAX_SAFE_INTEGER : Z := 9007199254740991.

(** An integer that a [number] holds exactly, as do its neighbours. *)
Definition safe_integer (i : Z) : Prop := Z.abs i <= MAX_SAFE_INTEGER.

(** The double nearest to the integer [z] (ties to the even significand):
    every integer up to 2^53 in magnitude is a double; above, [z] is
    rounded to 53 significant bits.  (No overflow: below 2^1024.) *)
Definition round_double (z : Z) : Z :=
  let a := Z.abs z in
  if a <=? MAX_SAFE_INTEGER + 1 then z
  else
    let e := Z.log2 a - 52 in
    let q := a / 2 ^ e in
    let r := a mod 2 ^ e in
    let half := 2 ^ (e - 1) in
    let q' := if r <? half then q
              else if half <? r then q + 1
              else if Z.even q then q else q + 1 in
    Z.sgn z * (q' * 2 ^ e).

(** [a + b] on two numbers that hold integers: the exact sum, rounded. *)
Definition Number_add (a b : Z) : Z := round_double (a + b).

(** ** The state of the component *)

Module App.
Record t := mk {
    user : option User.t;
    view : View;
    proposals : list Proposal.t;
    postForm : PostForm.t;
    aiAnalysis : option AiAnalysis.t;
    isAIApproved : bool;
    isPostModalOpen : bool;
    (** checks awaiting the answer of [analyzeProposal], each with the
        title and content it was called with *)
    inflight : list (jsstring * jsstring);
    (** [localStorage] under the key ['schoolProposals'] *)
    storage : option (list Proposal.t) }.

(** [setProposals(ps)] and the write of [ps] to the storage, when the write
    returns. *)
Definition set_proposals (s : t) (ps : list Proposal.t) : t :=
    mk (user s) (view s) ps (postForm s) (aiAnalysis s) (isAIApproved s)
       (isPostModalOpen s) (inflight s) (Some ps).

Definition set_view (s : t) (v : View) : t :=
    mk (user s) v (proposals s) (postForm s) (aiAnalysis s) (isAIApproved s)
       (isPostModalOpen s) (inflight s) (storage s).

Definition set_gate (s : t) (f : PostForm.t) (a : option AiAnalysis.t)
      (ok : bool) (q : list (jsstring * jsstring)) : t :=
    mk (user s) (view s) (proposals s) f a ok (isPostModalOpen s) q (storage s).
End App.

(** ** Proposal store *)

(** The id [handlePostSubmit] gives to the new proposal:
    [proposals.length > 0 ? Math.max(...proposals.map(p => p.id)) + 1 : 1],
    with the sum taken exactly.  It is what the program computes as long as
    the ids are safe integers ([newId_double], [newId_double_exact]). *)
Definition newId (proposals : list Proposal.t) : Z :=
  match map Proposal.id proposals with
  | [] => 1
  | x :: l => Math_max x l + 1
  end.

(** The same expression with the sum as the program takes it, in doubles. *)
Definition newId_double (proposals : list Proposal.t) : Z :=
  match map Proposal.id proposals with
  | [] => 1
  | x :: l => Number_add (Math_max x l) 1
  end.

(** [handlePostSubmit]: returns at once unless the check has approved.  This
    is the handler as it runs when [localStorage.setItem] returns;
    [handlePostSubmit_io] has the exit at a write that throws as well. *)
Definition handlePostSubmit (now : jsstring) (s : App.t) : App.t :=
  if negb (App.isAIApproved s) then s
  else
    let postForm := App.postForm s in
    let finalCategory :=
      if truthy (PostForm.category postForm) then PostForm.category postForm
      else or_else (match App.aiAnalysis s with
                    | Some a => AiAnalysis.detectedCategory a
                    | None => None
                    end) CATEGORY_OTHER in
    let newProposal :=
      Proposal.mk (newId (App.proposals s)) (PostForm.title postForm)
        (PostForm.content postForm) finalCategory Received [] now [] in
    let updated := newProposal :: App.proposals s in
    App.mk (App.user s) (App.view s) updated PostForm.empty None false false
      (App.inflight s) (Some updated).

(** The body of the [map] callback of [toggleSignature]. *)
Definition toggle_one (user : User.t) (now : jsstring) (proposalId : Z)
    (p : Proposal.t) : Proposal.t :=
  if Proposal.id p =? proposalId then
    let signedIndex :=
      findIndex (fun s => str_eqb (Signature.userId s) (User.id user))
                (Proposal.signatures p) in
    if signedIndex >=? 0 then
      Proposal.with_signatures p (splice1 signedIndex (Proposal.signatures p))
    else
      Proposal.with_signatures p
        (Proposal.signatures p ++
         [Signature.mk (User.id user) (User.name user) now])
  else p.

(** [toggleSignature]; [confirmed] is the answer to the [confirm] dialog
    shown when nobody is logged in. *)
Definition toggleSignature (confirmed : bool) (now : jsstring) (proposalId : Z)
    (s : App.t) : App.t :=
  match App.user s with
  | None => if confirmed then App.set_view s v_login else s
  | Some user =>
    App.set_proposals s (map (toggle_one user now proposalId) (App.proposals s))
  end.

(** The body of the [map] callback of [updateAdminStatus]. *)
Definition status_one (proposalId : Z) (newStatus : Status) (response : jsstring)
    (p : Proposal.t) : Proposal.t :=
  if Proposal.id p =? proposalId then Proposal.with_status p newStatus response
  else p.

Definition updateAdminStatus (proposalId : Z) (newStatus : Status)
    (response : jsstring) (s : App.t) : App.t :=
  App.set_proposals s (map (status_one proposalId newStatus response) (App.proposals s)).

(** ** Submission gate *)

(** [handleInputChange]: [{ ...prev, [field]: value }], and the approval and
    the analysis are reset. *)
Definition handleInputChange (field : Field) (value : jsstring) (s : App.t) : App.t :=
  let prev := App.postForm s in
  let form :=
    match field with
    | f_title => PostForm.mk value (PostForm.content prev) (PostForm.category prev)
    | f_content => PostForm.mk (PostForm.title prev) value (PostForm.category prev)
    | f_category => PostForm.mk (PostForm.title prev) (PostForm.content prev) value
    end in
  App.set_gate s form None false (App.inflight s).

(** [handleAIAnalyze] up to its [await]: the validation, the two state
    updates and the call of [analyzeProposal] with the title and the content
    of the form. *)
Definition handleAIAnalyze_call (s : App.t) : App.t :=
  let postForm := App.postForm s in
  if negb (truthy (PostForm.title postForm)) || negb (truthy (PostForm.content postForm))
  then s
  else
    App.set_gate s postForm (Some (AiAnalysis.mk [] true None None)) false
      (App.inflight s ++ [(PostForm.title postForm, PostForm.content postForm)]).

Definition ADVICE_OK : jsstring := js "チェックが完了しました。問題ありません。".
Definition ADVICE_NG : jsstring :=
  js "内容に修正が必要な点が見つかりました。ガイドラインに沿って見直してください。".

(** [handleAIAnalyze] after its [await], once [analyzeProposal] has answered
    [result]. *)
Definition handleAIAnalyze_resume (result : AIAnalysisResult.t) (s : App.t) : App.t :=
  let displayAdvice :=
    or_else (AIAnalysisResult.advice result)
      (if AIAnalysisResult.isAppropriate result then ADVICE_OK else ADVICE_NG) in
  let analysis :=
    AiAnalysis.mk displayAdvice false (Some (AIAnalysisResult.category result))
      (Some (AIAnalysisResult.tags result)) in
  let prev := App.postForm s in
  let form :=
    if AIAnalysisResult.isAppropriate result then
      PostForm.mk (or_else (AIAnalysisResult.refinedTitle result) (PostForm.title prev))
        (or_else (AIAnalysisResult.refinedContent result) (PostForm.content prev))
        (AIAnalysisResult.category result)
    else prev in
  App.set_gate s form (Some analysis) (AIAnalysisResult.isAppropriate result)
    (App.inflight s).

(** The answer to the [k]-th check in flight arrives. *)
Definition check_resolved (k : nat) (result : AIAnalysisResult.t) (s : App.t) : App.t :=
  match nth_error (App.inflight s) k with
  | None => s
  | Some _ =>
    let q := firstn k (App.inflight s) ++ skipn (S k) (App.inflight s) in
    handleAIAnalyze_resume result
      (App.set_gate s (App.postForm s) (App.aiAnalysis s) (App.isAIApproved s) q)
  end.

(** ** Events *)

Inductive Event :=
| OpenPostModal
| ClosePostModal
| InputChange (field : Field) (value : jsstring)
| ClickCheck
| CheckResolved (k : nat) (result : AIAnalysisResult.t)
| SubmitForm (now : jsstring)
| ClickSign (confirmed : bool) (now : jsstring) (proposalId : Z)
| AdminChange (proposalId : Z) (newStatus : Status) (response : jsstring)
| LoggedIn (u : User.t)
| LoggedOut.

Definition set_modal (s : App.t) (b : bool) : App.t :=
  App.mk (App.user s) (App.view s) (App.proposals s) (App.postForm s)
    (App.aiAnalysis s) (App.isAIApproved s) b (App.inflight s) (App.storage s).

Definition set_user (s : App.t) (u : option User.t) (v : View) : App.t :=
  App.mk u v (App.proposals s) (App.postForm s) (App.aiAnalysis s)
    (App.isAIApproved s) (App.isPostModalOpen s) (App.inflight s) (App.storage s).

Definition step (s : App.t) (e : Event) : App.t :=
  match e with
  | OpenPostModal => set_modal s true
  | ClosePostModal => set_modal s false
  | InputChange field value => handleInputChange field value s
  | ClickCheck => handleAIAnalyze_call s
  | CheckResolved k result => check_resolved k result s
  | SubmitForm now => handlePostSubmit now s
  | ClickSign confirmed now proposalId => toggleSignature confirmed now proposalId s
  | AdminChange proposalId newStatus response =>
    updateAdminStatus proposalId newStatus response s
  | LoggedIn u => set_user s (Some u) v_home
  | LoggedOut => set_user s None (App.view s)
  end.

Definition run (s : App.t) (es : list Event) : App.t := fold_left step es s.

Definition is_loading (s : App.t) : bool :=
  match App.aiAnalysis s with
  | Some a => AiAnalysis.loading a
  | None => false
  end.

Definition is_admin (s : App.t) : bool :=
  match App.user s with
  | Some u => match User.role u with admin => true | student => false end
  | None => false
  end.

(** What the rendered page lets happen in state [s]: the form exists while
    the post modal is open, the check button is rendered while not approved
    and disabled while loading, the administrator menu is rendered for
    administrators, and an answer can only arrive for a check in flight. *)
Definition enabled (s : App.t) (e : Event) : bool :=
  match e with
  | InputChange _ _ | SubmitForm _ => App.isPostModalOpen s
  | ClickCheck =>
    App.isPostModalOpen s && negb (App.isAIApproved s) && negb (is_loading s)
  | CheckResolved k _ => (k <? length (App.inflight s))%nat
  | AdminChange _ _ _ => is_admin s
  | _ => true
  end.

Fixpoint all_enabled (s : App.t) (es : list Event) : bool :=
  match es with
  | [] => true
  | e :: r => enabled s e && all_enabled (step s e) r
  end.

(** The seed collection of the first [useEffect]. *)
Definition seeds (t1 t2 t3 tsig : jsstring) : list Proposal.t :=
  [ Proposal.mk 1 (js "靴下の色にグレーを追加して欲しい")
      (js "靴下の色は黒・白・紺のみですが、友達の学校ではグレーも良いそうです。なぜグレーがダメなのかわかりません。グレーの追加をお願いします。 #靴下")
      (js "校則") Coordinating
      (js "生徒総会での議論を経て、職員会議に提案中です。") t1 [];
    Proposal.mk 2 (js "食堂のメニューに麺類を追加してほしい")
      (js "今はパンとおにぎりしかありません。温かい麺類（うどんやラーメン）が食べたいです。 #食堂 #ランチ #改善希望")
      (js "設備・環境") Received [] t2
      [Signature.mk (js "demo") (js "デモ太郎") tsig];
    Proposal.mk 3 (js "図書室の開館時間を延長してください")
      (js "放課後、部活の前にもう少し勉強したいのですが、すぐに閉まってしまいます。あと30分延長できませんか？")
      (js "設備・環境") Resolved
      (js "試験期間中のみ、18:00まで延長することが決定しました。") t3 [] ].

(** The state after the first render and its [useEffect]: the saved
    collection when there is one, the seeds otherwise. *)
Definition init (saved : option (list Proposal.t)) (t1 t2 t3 tsig : jsstring) : App.t :=
  match saved with
  | Some ps => App.mk None v_home ps PostForm.empty None false false [] saved
  | None =>
    App.mk None v_home (seeds t1 t2 t3 tsig) PostForm.empty None false false []
      (Some (seeds t1 t2 t3 tsig))
  end.

(** The states of the application: a first start, any event, and a restart
    on what was saved. *)
Inductive reachable : App.t -> Prop :=
| reach_init t1 t2 t3 tsig : reachable (init None t1 t2 t3 tsig)
| reach_step s e : reachable s -> reachable (step s e)
| reach_reload s t1 t2 t3 tsig :
    reachable s -> reachable (init (App.storage s) t1 t2 t3 tsig).

(** ** View engine *)

(** [Array.prototype.sort] with a comparator, as ECMAScript specifies it for
    a consistent comparator: a stable sort.  It is modelled by the stable
    insertion sort; [cmp a b <= 0] keeps [a] before [b]. *)
Fixpoint sort_insert {A} (cmp : A -> A -> Z) (x : A) (l : list A) : list A :=
  match l with
  | [] => [x]
  | y :: r => if cmp x y <=? 0 then x :: y :: r else y :: sort_insert cmp x r
  end.

Fixpoint Array_sort {A} (cmp : A -> A -> Z) (l : list A) : list A :=
  match l with
  | [] => []
  | x :: r => sort_insert cmp x (Array_sort cmp r)
  end.

(** [s.startsWith(sub)] and [s.includes(sub)]. *)
Fixpoint startsWith (s sub : jsstring) : bool :=
  match sub, s with
  | [], _ => true
  | a :: sub', b :: s' => (a =? b)%N && startsWith s' sub'
  | _ :: _, [] => false
  end.

Fixpoint includes (s sub : jsstring) : bool :=
  startsWith s sub ||
  match s with
  | [] => false
  | _ :: r => includes r sub
  end.

Inductive SortOrder := newest | by_signatures.

Definition ALL : jsstring := js "all".

Definition signature_count (p : Proposal.t) : Z :=
  Z.of_nat (length (Proposal.signatures p)).

(** The comparators of the two orders.  [getTime] is
    [s => new Date(s).getTime()]. *)
Definition cmp_newest (getTime : jsstring -> Z) (a b : Proposal.t) : Z :=
  getTime (Proposal.timestamp b) - getTime (Proposal.timestamp a).

Definition cmp_signatures (a b : Proposal.t) : Z :=
  signature_count b - signature_count a.

(** The two filters of [filteredProposals]. *)
Definition visible (toLowerCase : jsstring -> jsstring)
    (categoryFilter searchTerm : jsstring) (p : Proposal.t) : bool :=
  (if negb (str_eqb categoryFilter ALL)
   then str_eqb (Proposal.category p) categoryFilter else true) &&
  (if truthy searchTerm
   then
     let lower := toLowerCase searchTerm in
     includes (toLowerCase (Proposal.title p)) lower ||
     includes (toLowerCase (Proposal.content p)) lower
   else true).

(** [filteredProposals]; [getTime] and [toLowerCase] are the two functions of
    the JavaScript library it calls. *)
Definition filteredProposals (getTime : jsstring -> Z)
    (toLowerCase : jsstring -> jsstring)
    (proposals : list Proposal.t) (categoryFilter searchTerm : jsstring)
    (sortOrder : SortOrder) : list Proposal.t :=
  let res := proposals in
  let res :=
    if negb (str_eqb categoryFilter ALL)
    then filter (fun p => str_eqb (Proposal.category p) categoryFilter) res
    else res in
  let res :=
    if truthy searchTerm
    then
      let lower := toLowerCase searchTerm in
      filter (fun p => includes (toLowerCase (Proposal.title p)) lower ||
                       includes (toLowerCase (Proposal.content p)) lower) res
    else res in
  match sortOrder with
  | newest => Array_sort (cmp_newest getTime) res
  | by_signatures => Array_sort cmp_signatures res
  end.

(** *** Trending tags *)

(** The class [[#＃]]. *)
Definition is_marker (c : N) : bool := ((c =? 0x23) || (c =? 0xFF03))%N.

(** The class [[\s　]]: the white space and line terminators of ECMAScript,
    among them the ideographic space. *)
Definition is_space (c : N) : bool :=
  ((c =? 0x09) || (c =? 0x0A) || (c =? 0x0B) || (c =? 0x0C) || (c =? 0x0D) ||
   (c =? 0x20) || (c =? 0xA0) || (c =? 0x1680) ||
   ((0x2000 <=? c) && (c <=? 0x200A)) ||
   (c =? 0x2028) || (c =? 0x2029) || (c =? 0x202F) || (c =? 0x205F) ||
   (c =? 0x3000) || (c =? 0xFEFF))%N.

(** The longest prefix matched by [[^\s　]*]. *)
Fixpoint nonspace_run (s : jsstring) : jsstring :=
  match s with
  | [] => []
  | c :: r => if is_space c then [] else c :: nonspace_run r
  end.

(** One attempt of [/([#＃][^\s　]+)/] at the start of [s]. *)
Definition match_here (s : jsstring) : option jsstring :=
  match s with
  | [] => None
  | c :: r =>
    if is_marker c then
      match nonspace_run r with
      | [] => None
      | body => Some (c :: body)
      end
    else None
  end.

(** The matches of the global pattern from left to right; [skip] counts the
    code units that the previous match still covers. *)
Fixpoint match_all (skip : nat) (s : jsstring) : list jsstring :=
  match s with
  | [] => []
  | _ :: r =>
    match skip with
    | S k => match_all k r
    | O =>
      match match_here s with
      | Some tok => tok :: match_all (length tok - 1) r
      | None => match_all 0 r
      end
    end
  end.

(** [s.match(/([#＃][^\s　]+)/g)]: [null] when nothing matches. *)
Definition String_match_tags (s : jsstring) : option (list jsstring) :=
  match match_all 0 s with
  | [] => None
  | l => Some l
  end.

(** [counts], an object used as a map.  Its keys begin with a tag marker, so
    none is an array index and [Object.entries] lists them in the order of
    their first assignment: an association list. *)
Definition Counts := list (jsstring * Z).

Fixpoint get (t : jsstring) (counts : Counts) : option Z :=
  match counts with
  | [] => None
  | (k, v) :: r => if str_eqb k t then Some v else get t r
  end.

Fixpoint assign (t : jsstring) (v : Z) (counts : Counts) : Counts :=
  match counts with
  | [] => [(t, v)]
  | (k, w) :: r => if str_eqb k t then (k, v) :: r else (k, w) :: assign t v r
  end.

(** [counts[t] || 0] *)
Definition or_zero (o : option Z) : Z :=
  match o with
  | Some v => if v =? 0 then 0 else v
  | None => 0
  end.

(** [counts[t] = (counts[t] || 0) + 1] *)
Definition count_tag (counts : Counts) (t : jsstring) : Counts :=
  assign t (or_zero (get t counts) + 1) counts.

Definition count_proposal (counts : Counts) (p : Proposal.t) : Counts :=
  match String_match_tags (Proposal.content p) with
  | Some tags => fold_left count_tag tags counts
  | None => counts
  end.

Definition tag_counts (proposals : list Proposal.t) : Counts :=
  fold_left count_proposal proposals [].

Definition cmp_count (a b : jsstring * Z) : Z := snd b - snd a.

Definition trendingTags (proposals : list Proposal.t) : list (jsstring * Z) :=
  firstn 5 (Array_sort cmp_count (tag_counts proposals)).

(** ** Moderation client ([geminiService.ts]) *)

(** What a [try] block can catch. *)
Inductive Thrown :=
| Rejected (reason : jsstring)      (* the request promise is rejected *)
| NoResponse                        (* [new Error("No response from AI")] *)
| SyntaxError (message : jsstring). (* thrown by [JSON.parse] *)

Inductive Completion (A : Type) :=
| Return (a : A)
| Throw (e : Thrown).

Arguments Return {A} a.
Arguments Throw {A} e.

Definition bind {A B} (c : Completion A) (k : A -> Completion B) : Completion B :=
  match c with
  | Return a => k a
  | Throw e => Throw e
  end.

(** [try { body } catch (error) { handler }] *)
Definition try_catch {A} (body : Completion A) (handler : Thrown -> Completion A)
    : Completion A :=
  match body with
  | Return a => Return a
  | Throw e => handler e
  end.

Notation "x <- c ;; k" := (bind c (fun x => k))
  (at level 61, c at next level, right associativity).

Module Request.
Record t := mk { model : jsstring; contents : jsstring }.
End Request.

(** The response of [generateContent]; [text] may be [undefined]. *)
Module Response.
Record t := mk { text : option jsstring }.
End Response.

Definition MODEL : jsstring := js "gemini-2.0-flash-exp".

Definition FALLBACK_ADVICE : jsstring :=
  js "AIチェック機能に一時的な不具合が発生しています。時間をおいて再度お試しください。".

(** The object the [catch] block returns. *)
Definition fallback : AIAnalysisResult.t :=
  AIAnalysisResult.mk false (js "その他") [] None None (Some FALLBACK_ADVICE).

(** [analyzeProposal].  [prompt] is the template literal of the source as a
    function of the title and the content, [generateContent] the call of the
    service and [JSON_parse] the parser, both of which may throw. *)
Definition analyzeProposal
    (prompt : jsstring -> jsstring -> jsstring)
    (generateContent : Request.t -> Completion Response.t)
    (JSON_parse : jsstring -> Completion AIAnalysisResult.t)
    (title content : jsstring) : Completion AIAnalysisResult.t :=
  try_catch
    (response <- generateContent (Request.mk MODEL (prompt title content)) ;;
     match Response.text response with
     | None => Throw NoResponse
     | Some text =>
       if negb (truthy text) then Throw NoResponse
       else
         result <- JSON_parse text ;;
         Return result
     end)
    (fun _ => Return fallback).

(** ** Auxiliary definitions for the statements *)

(** The list without its first element that satisfies [f]. *)
Fixpoint remove_first {A} (f : A -> bool) (l : list A) : list A :=
  match l with
  | [] => []
  | x :: r => if f x then r else x :: remove_first f r
  end.

(** The test of the [findIndex] callback of [toggleSignature]. *)
Definition signed_by (u : User.t) (sg : Signature.t) : bool :=
  str_eqb (Signature.userId sg) (User.id u).

Definition has_signed (u : User.t) (p : Proposal.t) : bool :=
  existsb (signed_by u) (Proposal.signatures p).

Definition signers (p : Proposal.t) : list jsstring :=
  map Signature.userId (Proposal.signatures p).

(** No two signatures of a proposal carry the same [userId]. *)
Definition sigs_unique (ps : list Proposal.t) : Prop :=
  Forall (fun p => NoDup (signers p)) ps.

Definition ids (ps : list Proposal.t) : list Z := map Proposal.id ps.

(** All fields but [signatures] agree. *)
Definition same_but_signatures (p p' : Proposal.t) : Prop :=
  Proposal.id p' = Proposal.id p /\
  Proposal.title p' = Proposal.title p /\
  Proposal.content p' = Proposal.content p /\
  Proposal.category p' = Proposal.category p /\
  Proposal.status p' = Proposal.status p /\
  Proposal.adminResponse p' = Proposal.adminResponse p /\
  Proposal.timestamp p' = Proposal.timestamp p.

(** All fields but [status] and [adminResponse] agree. *)
Definition same_but_status (p p' : Proposal.t) : Prop :=
  Proposal.id p' = Proposal.id p /\
  Proposal.title p' = Proposal.title p /\
  Proposal.content p' = Proposal.content p /\
  Proposal.category p' = Proposal.category p /\
  Proposal.timestamp p' = Proposal.timestamp p /\
  Proposal.signatures p' = Proposal.signatures p.

(** The relation between a proposal and what two toggles by [u] on
    [pid] leave of it. *)
Definition twice_toggled (u : User.t) (t2 : jsstring) (pid : Z)
    (p p' : Proposal.t) : Prop :=
  (Proposal.id p <> pid -> p' = p) /\
  (Proposal.id p = pid -> has_signed u p = false -> p' = p) /\
  (Proposal.id p = pid -> has_signed u p = true -> NoDup (signers p) ->
   p' = Proposal.with_signatures p
          (remove_first (signed_by u) (Proposal.signatures p) ++
           [Signature.mk (User.id u) (User.name u) t2])).

(** ** Example states *)

Definition alice : User.t :=
  User.mk (js "alice@example.com") (js "Alice") student (Some (js "3-A"))
    (Some (js "alice@example.com")).

Definition bob : User.t :=
  User.mk (js "bob@example.com") (js "Bob") student (Some (js "3-A"))
    (Some (js "bob@example.com")).

Definition T0 : jsstring := js "2025-11-22T10:00:00.000Z".
Definition T1 : jsstring := js "2025-11-23T10:00:00.000Z".

(** Alice, then Bob, have signed proposal 1 of the seeds; Alice is logged in. *)
Definition both_signed : App.t :=
  run (init None T0 T0 T0 T0)
      [LoggedIn alice; ClickSign false T1 1; LoggedIn bob; ClickSign false T1 1;
       LoggedIn alice].

(** What is saved is the collection in memory. *)
Definition saved_current (s : App.t) : Prop :=
  App.storage s = Some (App.proposals s).

(** The effect of an operation on one proposal: untouched when its id is
    not the target, and otherwise changed within [allowed] only. *)
Definition framed (allowed : Proposal.t -> Proposal.t -> Prop) (pid : Z)
    (p p' : Proposal.t) : Prop :=
  allowed p p' /\ (Proposal.id p <> pid -> p' = p).


(** The answer of a check that approves. *)
Definition approving (e : Event) : bool :=
  match e with
  | CheckResolved _ result => AIAnalysisResult.isAppropriate result
  | _ => false
  end.

Definition is_check_click (e : Event) : bool :=
  match e with
  | ClickCheck => true
  | _ => false
  end.

(** The three ways in which the call of the service fails: the request is
    rejected, the response carries no text, the text does not parse. *)
Definition moderation_failed
    (prompt : jsstring -> jsstring -> jsstring)
    (generateContent : Request.t -> Completion Response.t)
    (JSON_parse : jsstring -> Completion AIAnalysisResult.t)
    (title content : jsstring) : Prop :=
  let answer := generateContent (Request.mk MODEL (prompt title content)) in
  (exists e, answer = Throw e) \/
  answer = Return (Response.mk None) \/
  answer = Return (Response.mk (Some [])) \/
  (exists text e, answer = Return (Response.mk (Some text)) /\
                  JSON_parse text = Throw e).

(** An approving answer that proposes no rewording. *)
Definition verdict_ok : AIAnalysisResult.t :=
  AIAnalysisResult.mk true (js "校則") [js "#校則"] None None None.

(** An approving answer with a reworded title and content. *)
Definition verdict_reworded : AIAnalysisResult.t :=
  AIAnalysisResult.mk true (js "校則") [js "#校則"] (Some (js "T'"))
    (Some (js "C'")) (Some (js "OK")).

(** A draft is typed and checked, and its content is replaced while the
    check is in flight. *)
Definition edited_in_flight : list Event :=
  [OpenPostModal; InputChange f_title (js "T"); InputChange f_content (js "C");
   ClickCheck; InputChange f_content (js "bad")].

(** A draft is checked, edited while the check is in flight and checked
    again; the second check is answered first and approves. *)
Definition approved_with_pending : list Event :=
  [OpenPostModal; InputChange f_title (js "T"); InputChange f_content (js "C");
   ClickCheck; InputChange f_content (js "C2"); ClickCheck;
   CheckResolved 1 verdict_ok].

Definition first_start : App.t := init None T0 T0 T0 T0.

(** The comparator that orders by [key], largest first:
    [(a, b) => key(b) - key(a)]. *)
Definition desc_by {A} (key : A -> Z) (a b : A) : Z := key b - key a.

(** [a] may stand before [b]: its key is not smaller. *)
Definition not_below {A} (key : A -> Z) (a b : A) : Prop := key b <= key a.

(** The elements whose key is [k], in their order. *)
Definition with_key {A} (key : A -> Z) (k : Z) (l : list A) : list A :=
  filter (fun a => key a =? k) l.

Definition created (getTime : jsstring -> Z) (p : Proposal.t) : Z :=
  getTime (Proposal.timestamp p).

(** A token starts at the head of [s]: a marker, then a code unit that is
    no space. *)
Definition starts_token (s : jsstring) : Prop :=
  exists c d r, s = c :: d :: r /\ is_marker c = true /\ is_space d = false.

(** The grammar of tag tokens, read from left to right: where no token
    starts the code unit is passed over; a token is a marker and the run of
    one or more code units up to the next space or the end. *)
Inductive tokens_of : jsstring -> list jsstring -> Prop :=
| tokens_end : tokens_of [] []
| tokens_pass c s l :
    ~ starts_token (c :: s) -> tokens_of s l -> tokens_of (c :: s) l
| tokens_take c body rest l :
    is_marker c = true ->
    body <> [] ->
    Forall (fun d => is_space d = false) body ->
    (rest = [] \/ exists sp r, rest = sp :: r /\ is_space sp = true) ->
    tokens_of rest l ->
    tokens_of (c :: body ++ rest) ((c :: body) :: l).

(** Somewhere in [s] a marker is followed by a code unit that is no space. *)
Definition has_tag (s : jsstring) : Prop :=
  exists pre c d post,
    s = pre ++ c :: d :: post /\ is_marker c = true /\ is_space d = false.

(** The tokens of all contents, in the order of the scan. *)
Definition all_tokens (ps : list Proposal.t) : list jsstring :=
  flat_map (fun p => match_all 0 (Proposal.content p)) ps.

(** How often [t] occurs in [toks]. *)
Definition occurrences (t : jsstring) (toks : list jsstring) : Z :=
  Z.of_nat (count_occ (list_eq_dec N.eq_dec) toks t).

Definition keys (counts : Counts) : list jsstring := map fst counts.

(** [has_tag], decided. *)
Fixpoint has_tagb (s : jsstring) : bool :=
  match s with
  | [] => false
  | c :: r =>
    match r with
    | [] => false
    | d :: _ => (is_marker c && negb (is_space d)) || has_tagb r
    end
  end.

(** ** Further statements about the store and the gate *)

(** The fields of a proposal that its creation sets for good. *)
Definition fixed_fields (p : Proposal.t)
    : Z * jsstring * jsstring * jsstring * jsstring :=
  (Proposal.id p, Proposal.title p, Proposal.content p, Proposal.category p,
   Proposal.timestamp p).

(** [postForm.category || aiAnalysis?.detectedCategory || "その他"], the
    category [handlePostSubmit] gives to the new proposal. *)
Definition finalCategory (s : App.t) : jsstring :=
  if truthy (PostForm.category (App.postForm s))
  then PostForm.category (App.postForm s)
  else or_else (match App.aiAnalysis s with
                | Some a => AiAnalysis.detectedCategory a
                | None => None
                end) CATEGORY_OTHER.

(** The proposal [handlePostSubmit] creates in state [s] at time [now]. *)
Definition newProposal (now : jsstring) (s : App.t) : Proposal.t :=
  Proposal.mk (newId (App.proposals s)) (PostForm.title (App.postForm s))
    (PostForm.content (App.postForm s)) (finalCategory s) Received [] now [].

(** Every check in flight was called with a title and a content. *)
Definition inflight_valid (s : App.t) : Prop :=
  Forall (fun b => fst b <> [] /\ snd b <> []) (App.inflight s).

(** What the form shows once a check has been answered. *)
Definition answered (s : App.t) (a : AiAnalysis.t) : Prop :=
  App.aiAnalysis s = Some a /\ AiAnalysis.loading a = false.

(** What holds of the gate in every reachable state. *)
Definition gate_inv (s : App.t) : Prop :=
  inflight_valid s /\
  (forall a, answered s a -> AiAnalysis.advice a <> []) /\
  (App.isAIApproved s = true ->
     exists a, answered s a /\
       AiAnalysis.detectedCategory a = Some (PostForm.category (App.postForm s))).

(** The signatures of the other users. *)
Definition others (u : User.t) (sigs : list Signature.t) : list Signature.t :=
  filter (fun sg => negb (signed_by u sg)) sigs.

(** What one call of [toggleSignature] by [u] on [pid] does to a proposal
    with that id in which no user has signed twice. *)
Definition toggled (u : User.t) (pid : Z) (p p' : Proposal.t) : Prop :=
  Proposal.id p = pid -> NoDup (signers p) ->
  has_signed u p' = negb (has_signed u p) /\
  others u (Proposal.signatures p') = others u (Proposal.signatures p) /\
  signature_count p' = signature_count p + (if has_signed u p then -1 else 1).

(** ** Views of the collection *)

(** [selectedProposal]: [proposals.find(p => p.id === selectedProposalId)];
    no id is [null]. *)
Definition selectedProposal (proposals : list Proposal.t)
    (selectedProposalId : option Z) : option Proposal.t :=
  match selectedProposalId with
  | Some i => find (fun p => Proposal.id p =? i) proposals
  | None => None
  end.

(** [a === b] on the literals of the status. *)
Definition Status_eqb (a b : Status) : bool :=
  match a, b with
  | Received, Received | UnderReview, UnderReview
  | Coordinating, Coordinating | Resolved, Resolved => true
  | _, _ => false
  end.

(** One column of the status view:
    [proposals.filter(p => p.status === status)]. *)
Definition status_items (proposals : list Proposal.t) (status : Status)
    : list Proposal.t :=
  filter (fun p => Status_eqb (Proposal.status p) status) proposals.

(** The columns of [renderStatusView], one for each of [STATUS_STEPS]. *)
Definition status_columns (proposals : list Proposal.t)
    : list (Status * list Proposal.t) :=
  map (fun status => (status, status_items proposals status)) STATUS_STEPS.

(** ** The announcements *)

Module NewsItem.
Record t := mk {
    id : Z;
    title : jsstring;
    content : jsstring;
    timestamp : jsstring;
    author : jsstring }.
End NewsItem.

Module NewsForm.
Record t := mk { title : jsstring; content : jsstring }.
Definition empty : t := mk [] [].
End NewsForm.

(** The state that [handleNewsSubmit] reads and writes. *)
Module News.
Record t := mk {
    news : list NewsItem.t;
    newsForm : NewsForm.t;
    isNewsModalOpen : bool;
    (** [localStorage] under the key ['schoolNews'] *)
    storage : option (list NewsItem.t) }.
End News.

(** [l.length > 0 ? Math.max(...l) + 1 : 1] for the list [l] of the ids, the
    sum taken in doubles. *)
Definition nextId (l : list Z) : Z :=
  match l with
  | [] => 1
  | x :: r => Number_add (Math_max x r) 1
  end.

(** [user?.name || 'Admin'] *)
Definition news_author (user : option User.t) : jsstring :=
  or_else (option_map User.name user) (js "Admin").

(** [handleNewsSubmit]; [user] is the state [user], and [write_ok] tells
    whether [localStorage.setItem] returns: when it throws, the handler ends
    there, after [setNews]. *)
Definition handleNewsSubmit (write_ok : bool) (user : option User.t)
    (now : jsstring) (s : News.t) : News.t :=
  let newId := nextId (map NewsItem.id (News.news s)) in
  let newItem :=
    NewsItem.mk newId (NewsForm.title (News.newsForm s))
      (NewsForm.content (News.newsForm s)) now (news_author user) in
  let updated := newItem :: News.news s in
  if write_ok then News.mk updated NewsForm.empty false (Some updated)
  else News.mk updated (News.newsForm s) (News.isNewsModalOpen s) (News.storage s).

(** ** Logging in *)

Module LoginForm.
Record t := mk { email : jsstring; password : jsstring }.
End LoginForm.

Module RegisterForm.
Record t := mk { name : jsstring; email : jsstring; password : jsstring;
                 class : jsstring }.
End RegisterForm.

(** [handleLogin] *)
Definition handleLogin (loginForm : LoginForm.t) (s : App.t) : App.t :=
  let email := LoginForm.email loginForm in
  if truthy email then
    let isAdmin := includes email (js "admin") || str_eqb email (js "student-council") in
    set_user s
      (Some (User.mk email (if isAdmin then js "生徒会" else js "山田 太郎")
               (if isAdmin then admin else student) (Some (js "3-A")) (Some email)))
      v_home
  else s.

(** [handleRegister] *)
Definition handleRegister (registerForm : RegisterForm.t) (s : App.t) : App.t :=
  set_user s
    (Some (User.mk (RegisterForm.email registerForm) (RegisterForm.name registerForm)
             student (Some (RegisterForm.class registerForm))
             (Some (RegisterForm.email registerForm))))
    v_home.

(** [sub] occurs in [s]. *)
Definition occurs_in (sub s : jsstring) : Prop :=
  exists pre post, s = pre ++ sub ++ post.

(** ** Further statements about the views *)

(** The sum of the counts. *)
Definition total (counts : Counts) : Z := fold_right Z.add 0 (map snd counts).

(** The shape of a tag: a marker, then one or more code units, none of them
    a space. *)
Definition tag_shaped (t : jsstring) : Prop :=
  exists c body,
    t = c :: body /\ is_marker c = true /\ body <> [] /\
    Forall (fun d => is_space d = false) body.

(** What [filteredProposals] requires of a proposal to show it. *)
Definition shown (toLowerCase : jsstring -> jsstring)
    (categoryFilter searchTerm : jsstring) (p : Proposal.t) : Prop :=
  (categoryFilter = ALL \/ Proposal.category p = categoryFilter) /\
  (searchTerm = [] \/
   occurs_in (toLowerCase searchTerm) (toLowerCase (Proposal.title p)) \/
   occurs_in (toLowerCase searchTerm) (toLowerCase (Proposal.content p))).

(** [handlePostSubmit] with the outcome of its write: [write_ok] tells
    whether [localStorage.setItem] returns.  When it throws, the handler
    ends there: [setProposals] has been called, the form, the analysis, the
    approval and the modal are left as they were, and nothing is stored. *)
Definition handlePostSubmit_io (write_ok : bool) (now : jsstring) (s : App.t)
    : App.t :=
  if negb (App.isAIApproved s) then s
  else
    let updated := newProposal now s :: App.proposals s in
    if write_ok then
      App.mk (App.user s) (App.view s) updated PostForm.empty None false false
        (App.inflight s) (Some updated)
    else
      App.mk (App.user s) (App.view s) updated (App.postForm s)
        (App.aiAnalysis s) (App.isAIApproved s) (App.isPostModalOpen s)
        (App.inflight s) (App.storage s).

(** The different tokens of all contents, each once. *)
Definition distinct_tokens (ps : list Proposal.t) : list jsstring :=
  nodup (list_eq_dec N.eq_dec) (all_tokens ps).

(** A saved collection whose one proposal has the id 2^53. *)
Definition at_the_limit : list Proposal.t :=
  [Proposal.mk 9007199254740992 (js "T") (js "C") (js "校則") Received [] T0 []].
(** * Properties *)

(** ** Strings and arrays *)

Lemma str_eqb_eq a b : str_eqb a b = true <-> a = b.
Proof.
  unfold str_eqb. destruct (list_eq_dec N.eq_dec a b); split; congruence.
Qed.

Lemma str_eqb_refl a : str_eqb a a = true.
Proof. now apply str_eqb_eq. Qed.

Lemma str_eqb_neq a b : str_eqb a b = false <-> a <> b.
Proof.
  unfold str_eqb. destruct (list_eq_dec N.eq_dec a b); split; congruence.
Qed.

Lemma findIndex_from_absent {A} (f : A -> bool) l i :
  existsb f l = false -> findIndex_from f l i = -1.
Proof.
  revert i. induction l as [|x r IH]; intros i H; simpl in *; [reflexivity|].
  apply orb_false_iff in H. destruct H as [Hx Hr]. rewrite Hx. now apply IH.
Qed.

Lemma findIndex_from_found {A} (f : A -> bool) l i :
  existsb f l = true ->
  exists n, findIndex_from f l i = i + Z.of_nat n /\
            firstn n l ++ skipn (S n) l = remove_first f l.
Proof.
  revert i. induction l as [|x r IH]; intros i H; simpl in *; [discriminate|].
  destruct (f x) eqn:Hx.
  - exists 0%nat. split; [lia | reflexivity].
  - simpl in H. destruct (IH (i + 1) H) as [n [Hn Hs]].
    exists (S n). split; [lia|]. simpl. now rewrite <- Hs.
Qed.

Lemma splice1_findIndex {A} (f : A -> bool) l :
  existsb f l = true ->
  0 <= findIndex f l /\ splice1 (findIndex f l) l = remove_first f l.
Proof.
  intros H. destruct (findIndex_from_found f l 0 H) as [n [Hn Hs]].
  unfold findIndex, splice1. rewrite Hn. split; [lia|].
  replace (Z.to_nat (0 + Z.of_nat n)) with n by lia. exact Hs.
Qed.

Lemma In_remove_first {A} (f : A -> bool) l x :
  In x (remove_first f l) -> In x l.
Proof.
  induction l as [|y r IH]; simpl; [tauto|].
  destruct (f y); simpl; intuition.
Qed.

Lemma remove_first_app_new {A} (f : A -> bool) l x :
  existsb f l = false -> f x = true -> remove_first f (l ++ [x]) = l.
Proof.
  induction l as [|y r IH]; simpl; intros H Hx.
  - now rewrite Hx.
  - apply orb_false_iff in H. destruct H as [Hy Hr]. rewrite Hy.
    now rewrite IH.
Qed.

Lemma existsb_remove_first_once {A B} (g : A -> B) (f : A -> bool) l :
  (forall x y, f x = true -> f y = true -> g x = g y) ->
  NoDup (map g l) -> existsb f (remove_first f l) = false.
Proof.
  intros Hg. induction l as [|x r IH]; simpl; intros Hnd; [reflexivity|].
  inversion Hnd as [|? ? Hnin Hr]; subst.
  destruct (f x) eqn:Hx.
  - destruct (existsb f r) eqn:He; [|reflexivity].
    apply existsb_exists in He. destruct He as [y [Hy Hfy]].
    exfalso. apply Hnin. rewrite (Hg x y Hx Hfy). now apply in_map.
  - simpl. rewrite Hx. now apply IH.
Qed.

(** ** The callbacks of the store, proposal by proposal *)

Lemma toggle_one_other u now pid p :
  Proposal.id p <> pid -> toggle_one u now pid p = p.
Proof.
  intros H. unfold toggle_one.
  destruct (Z.eqb_spec (Proposal.id p) pid); [contradiction | reflexivity].
Qed.

Lemma toggle_one_signed u now pid p :
  Proposal.id p = pid -> has_signed u p = true ->
  toggle_one u now pid p =
  Proposal.with_signatures p (remove_first (signed_by u) (Proposal.signatures p)).
Proof.
  intros Hid Hs. unfold toggle_one. rewrite Hid, Z.eqb_refl.
  destruct (splice1_findIndex (signed_by u) (Proposal.signatures p) Hs) as [Hge Heq].
  fold (signed_by u).
  destruct (Z.geb_spec (findIndex (signed_by u) (Proposal.signatures p)) 0) as [_|Hlt];
    [|lia].
  now rewrite Heq.
Qed.

Lemma toggle_one_unsigned u now pid p :
  Proposal.id p = pid -> has_signed u p = false ->
  toggle_one u now pid p =
  Proposal.with_signatures p
    (Proposal.signatures p ++ [Signature.mk (User.id u) (User.name u) now]).
Proof.
  intros Hid Hs. unfold toggle_one. rewrite Hid, Z.eqb_refl.
  fold (signed_by u). unfold findIndex.
  now rewrite (findIndex_from_absent _ _ 0 Hs).
Qed.

Lemma with_signatures_same p : Proposal.with_signatures p (Proposal.signatures p) = p.
Proof. now destruct p. Qed.

Lemma with_signatures_twice p a b :
  Proposal.with_signatures (Proposal.with_signatures p a) b =
  Proposal.with_signatures p b.
Proof. reflexivity. Qed.

Lemma signatures_with_signatures p a :
  Proposal.signatures (Proposal.with_signatures p a) = a.
Proof. reflexivity. Qed.

Lemma toggle_one_id u now pid p :
  Proposal.id (toggle_one u now pid p) = Proposal.id p.
Proof.
  unfold toggle_one. destruct (Proposal.id p =? pid); [|reflexivity].
  now destruct (_ >=? 0).
Qed.

Lemma status_one_other pid st r p :
  Proposal.id p <> pid -> status_one pid st r p = p.
Proof.
  intros H. unfold status_one.
  destruct (Z.eqb_spec (Proposal.id p) pid); [contradiction | reflexivity].
Qed.

Lemma map_unchanged {A} (f : A -> A) l :
  (forall x, In x l -> f x = x) -> map f l = l.
Proof.
  induction l as [|x r IH]; simpl; intros H; [reflexivity|].
  rewrite H by now left. f_equal. apply IH. intros y Hy. apply H. now right.
Qed.

Lemma Forall2_map_self {A} (R : A -> A -> Prop) (f : A -> A) l :
  (forall x, R x (f x)) -> Forall2 R l (map f l).
Proof. intros H. induction l; simpl; constructor; auto. Qed.

(** ** Endorsements: two toggles in a row *)

Lemma has_signed_after_sign u now p :
  has_signed u
    (Proposal.with_signatures p
       (Proposal.signatures p ++ [Signature.mk (User.id u) (User.name u) now])) = true.
Proof.
  unfold has_signed. simpl. rewrite existsb_app. simpl.
  unfold signed_by at 2. simpl. rewrite str_eqb_refl. now rewrite orb_true_r.
Qed.

Lemma signed_by_same_id u x y :
  signed_by u x = true -> signed_by u y = true ->
  Signature.userId x = Signature.userId y.
Proof.
  unfold signed_by. intros Hx Hy.
  apply str_eqb_eq in Hx. apply str_eqb_eq in Hy. congruence.
Qed.

Lemma toggle_one_twice_unsigned u t1 t2 pid p :
  Proposal.id p = pid -> has_signed u p = false ->
  toggle_one u t2 pid (toggle_one u t1 pid p) = p.
Proof.
  intros Hid Hs. rewrite (toggle_one_unsigned u t1 pid p Hid Hs).
  rewrite toggle_one_signed; [|exact Hid | apply has_signed_after_sign].
  rewrite with_signatures_twice, signatures_with_signatures.
  rewrite remove_first_app_new.
  - apply with_signatures_same.
  - exact Hs.
  - unfold signed_by. simpl. apply str_eqb_refl.
Qed.

Lemma toggle_one_twice_signed u t1 t2 pid p :
  Proposal.id p = pid -> has_signed u p = true -> NoDup (signers p) ->
  toggle_one u t2 pid (toggle_one u t1 pid p) =
  Proposal.with_signatures p
    (remove_first (signed_by u) (Proposal.signatures p) ++
     [Signature.mk (User.id u) (User.name u) t2]).
Proof.
  intros Hid Hs Hnd. rewrite (toggle_one_signed u t1 pid p Hid Hs).
  rewrite toggle_one_unsigned;
    [now rewrite with_signatures_twice, signatures_with_signatures | exact Hid |].
  unfold has_signed. rewrite signatures_with_signatures.
  apply (existsb_remove_first_once Signature.userId); [|exact Hnd].
  apply signed_by_same_id.
Qed.

(** C1, as amended.  Two calls of [toggleSignature] in a row by the same
    logged-in user on the same id leave every proposal with another id as it
    was; a proposal with that id which the user had not signed gets its
    signature list back exactly; in one the user had signed (once), the
    user's signature is removed from its place and a new one, stamped with
    the time of the second call, is appended at the end. *)
Theorem toggleSignature_twice s u c1 c2 t1 t2 pid :
  App.user s = Some u ->
  Forall2 (twice_toggled u t2 pid)
    (App.proposals s)
    (App.proposals (toggleSignature c2 t2 pid (toggleSignature c1 t1 pid s))).
Proof.
  intros Hu. unfold toggleSignature at 2. rewrite Hu.
  unfold toggleSignature. simpl. rewrite Hu. simpl. rewrite map_map.
  apply Forall2_map_self. intros p. repeat split.
  - intros Hne. rewrite (toggle_one_other u t1 pid p Hne).
    now apply toggle_one_other.
  - intros Hid Hs. now apply toggle_one_twice_unsigned.
  - intros Hid Hs Hnd. now apply toggle_one_twice_signed.
Qed.

Lemma toggleSignature_twice_witness :
  App.user both_signed = Some alice /\
  Forall2 (twice_toggled alice T1 1)
    (App.proposals both_signed)
    (App.proposals (toggleSignature false T1 1 (toggleSignature false T1 1 both_signed))).
Proof.
  split; [reflexivity|].
  apply (toggleSignature_twice both_signed alice false false T1 T1 1). reflexivity.
Defined.

(** C1 as stated fails: after two toggles by Alice the signatures
    of proposal 1 are Bob's then Alice's, no longer Alice's then Bob's. *)
Lemma toggleSignature_twice_not_identity :
  App.user both_signed = Some alice /\
  In 1 (ids (App.proposals both_signed)) /\
  map Proposal.signatures
    (App.proposals (toggleSignature false T1 1 (toggleSignature false T1 1 both_signed)))
  <> map Proposal.signatures (App.proposals both_signed).
Proof.
  split; [reflexivity|]. split; [left; reflexivity|].
  intros H. vm_compute in H. discriminate H.
Qed.

(** ** New ids *)

Lemma Math_max_ge x l :
  x <= Math_max x l /\ forall y, In y l -> y <= Math_max x l.
Proof.
  unfold Math_max. revert x. induction l as [|a r IH]; intros x; simpl.
  - split; [lia | tauto].
  - destruct (IH (Z.max x a)) as [H1 H2]. split; [lia|].
    intros y [Hy|Hy]; [subst; lia | now apply H2].
Qed.

Lemma Math_max_In x l : In (Math_max x l) (x :: l).
Proof.
  unfold Math_max. revert x. induction l as [|a r IH]; intros x; simpl.
  - now left.
  - destruct (IH (Z.max x a)) as [H|H].
    + rewrite <- H. destruct (Z.max_spec x a) as [[_ E]|[_ E]]; rewrite E; auto.
    + auto.
Qed.

Lemma newId_empty : newId [] = 1.
Proof. reflexivity. Qed.

Lemma newId_above ps i : In i (ids ps) -> i < newId ps.
Proof.
  unfold newId, ids. destruct (map Proposal.id ps) as [|x l]; simpl; [tauto|].
  destruct (Math_max_ge x l) as [H1 H2].
  intros [Hi|Hi]; [subst; lia | specialize (H2 i Hi); lia].
Qed.

Lemma newId_succ_of_member ps : ps <> [] -> In (newId ps - 1) (ids ps).
Proof.
  unfold newId, ids. destruct ps as [|p r]; [congruence|]. intros _.
  cbn [map].
  replace (Math_max (Proposal.id p) (map Proposal.id r) + 1 - 1)
    with (Math_max (Proposal.id p) (map Proposal.id r)) by lia.
  apply Math_max_In.
Qed.

Lemma newId_fresh ps : ~ In (newId ps) (ids ps).
Proof. intros H. apply newId_above in H. lia. Qed.

Lemma handlePostSubmit_approved now s :
  App.isAIApproved s = true ->
  exists cat,
    App.proposals (handlePostSubmit now s) =
    Proposal.mk (newId (App.proposals s)) (PostForm.title (App.postForm s))
      (PostForm.content (App.postForm s)) cat Received [] now []
    :: App.proposals s.
Proof.
  intros H. unfold handlePostSubmit. rewrite H. simpl. eexists. reflexivity.
Qed.

Lemma handlePostSubmit_blocked now s :
  App.isAIApproved s = false -> handlePostSubmit now s = s.
Proof. intros H. unfold handlePostSubmit. now rewrite H. Qed.

Lemma round_double_exact z :
  Z.abs z <= MAX_SAFE_INTEGER + 1 -> round_double z = z.
Proof.
  intros H. unfold round_double.
  destruct (Z.leb_spec (Z.abs z) (MAX_SAFE_INTEGER + 1)); [reflexivity | lia].
Qed.

(** On safe integers the sum in doubles is the exact sum. *)
Lemma newId_double_exact ps :
  Forall safe_integer (ids ps) -> newId_double ps = newId ps.
Proof.
  unfold newId_double, newId, ids. intros H.
  destruct (map Proposal.id ps) as [|x l]; [reflexivity|].
  unfold Number_add. apply round_double_exact.
  rewrite Forall_forall in H. specialize (H _ (Math_max_In x l)).
  unfold safe_integer in H. lia.
Qed.

(** C3, as amended.  For a collection whose ids are safe integers, when the
    gate lets [handlePostSubmit] create a proposal, the new proposal is put
    in front of the collection; its id, as the program computes it in
    doubles, is 1 when the collection was empty and otherwise one more than
    an existing id that no existing id exceeds, so it differs from every
    existing id.  The proposal starts as received, with no response and no
    signature. *)
Theorem handlePostSubmit_new_id now s :
  App.isAIApproved s = true ->
  Forall safe_integer (ids (App.proposals s)) ->
  exists p,
    App.proposals (handlePostSubmit now s) = p :: App.proposals s /\
    Proposal.id p = newId_double (App.proposals s) /\
    (App.proposals s = [] -> Proposal.id p = 1) /\
    (App.proposals s <> [] ->
       In (Proposal.id p - 1) (ids (App.proposals s)) /\
       forall i, In i (ids (App.proposals s)) -> i <= Proposal.id p - 1) /\
    ~ In (Proposal.id p) (ids (App.proposals s)) /\
    Proposal.status p = Received /\
    Proposal.adminResponse p = [] /\
    Proposal.signatures p = [].
Proof.
  intros H Hsafe. destruct (handlePostSubmit_approved now s H) as [cat E].
  eexists. split; [exact E|]. simpl.
  split; [symmetry; now apply newId_double_exact|]. repeat split.
  - intros Hnil. now rewrite Hnil.
  - now apply newId_succ_of_member.
  - intros i Hi. apply newId_above in Hi. lia.
  - apply newId_fresh.
Qed.

Lemma handlePostSubmit_new_id_witness :
  App.isAIApproved (handleAIAnalyze_resume
                      (AIAnalysisResult.mk true (js "校則") [] None None None)
                      both_signed) = true /\
  Forall safe_integer (ids (App.proposals both_signed)) /\
  exists p,
    App.proposals (handlePostSubmit T1
       (handleAIAnalyze_resume
          (AIAnalysisResult.mk true (js "校則") [] None None None) both_signed))
    = p :: App.proposals both_signed /\ Proposal.id p = 4.
Proof.
  assert (Hsafe : Forall safe_integer (ids (App.proposals both_signed))).
  { repeat constructor; unfold safe_integer, MAX_SAFE_INTEGER; simpl; lia. }
  split; [reflexivity|]. split; [exact Hsafe|].
  destruct (handlePostSubmit_new_id T1
              (handleAIAnalyze_resume
                 (AIAnalysisResult.mk true (js "校則") [] None None None) both_signed)
              eq_refl Hsafe) as [p [E [Hid _]]].
  exists p. split; [exact E|]. rewrite Hid. reflexivity.
Defined.

(** C3 as stated fails: for a collection that holds the id 2^53 the sum
    [Math.max(...) + 1], taken in doubles, is 2^53 again, so the id the
    program gives to the new proposal is the id of an existing one and not
    the largest id plus one. *)
Lemma newId_double_reuses_id :
  ids at_the_limit = [9007199254740992] /\
  newId_double at_the_limit = 9007199254740992 /\
  In (newId_double at_the_limit) (ids at_the_limit) /\
  newId_double at_the_limit <> 9007199254740992 + 1.
Proof.
  split; [reflexivity|]. split; [vm_compute; reflexivity|].
  split; [left; vm_compute; reflexivity|].
  vm_compute. discriminate.
Qed.

(** ** Uniqueness of signatures *)

Lemma NoDup_map_remove_first {A B} (g : A -> B) (f : A -> bool) l :
  NoDup (map g l) -> NoDup (map g (remove_first f l)).
Proof.
  induction l as [|x r IH]; simpl; intros H; [constructor|].
  inversion H as [|? ? Hnin Hr]; subst.
  destruct (f x); [exact Hr|]. simpl. constructor; [|now apply IH].
  intros Hin. apply Hnin. apply in_map_iff in Hin. destruct Hin as [y [Hy Hin]].
  apply in_map_iff. exists y. split; [exact Hy|]. now apply In_remove_first in Hin.
Qed.

Lemma not_signed_not_in u p :
  has_signed u p = false -> ~ In (User.id u) (signers p).
Proof.
  unfold has_signed, signers. intros H Hin.
  apply in_map_iff in Hin. destruct Hin as [sg [Hid Hin]].
  assert (Ht : existsb (signed_by u) (Proposal.signatures p) = true).
  { apply existsb_exists. exists sg. split; [exact Hin|].
    unfold signed_by. now apply str_eqb_eq. }
  congruence.
Qed.

Lemma toggle_one_unique u now pid p :
  NoDup (signers p) -> NoDup (signers (toggle_one u now pid p)).
Proof.
  intros H. destruct (Z.eq_dec (Proposal.id p) pid) as [Hid|Hne].
  - destruct (has_signed u p) eqn:Hs.
    + rewrite (toggle_one_signed u now pid p Hid Hs). unfold signers. simpl.
      now apply NoDup_map_remove_first.
    + rewrite (toggle_one_unsigned u now pid p Hid Hs). unfold signers. simpl.
      rewrite map_app. simpl.
      apply (Permutation_NoDup (Permutation_cons_append _ (User.id u))).
      constructor; [now apply not_signed_not_in | exact H].
  - now rewrite toggle_one_other.
Qed.

Lemma sigs_unique_toggle u now pid ps :
  sigs_unique ps -> sigs_unique (map (toggle_one u now pid) ps).
Proof.
  unfold sigs_unique. intros H. apply Forall_map.
  eapply Forall_impl; [|exact H]. intros p Hp. now apply toggle_one_unique.
Qed.

Lemma sigs_unique_status pid st r ps :
  sigs_unique ps -> sigs_unique (map (status_one pid st r) ps).
Proof.
  unfold sigs_unique. intros H. apply Forall_map.
  eapply Forall_impl; [|exact H]. intros p Hp. unfold status_one.
  now destruct (Proposal.id p =? pid).
Qed.

Lemma sigs_unique_seeds t1 t2 t3 tsig : sigs_unique (seeds t1 t2 t3 tsig).
Proof.
  unfold sigs_unique, seeds, signers. repeat constructor; simpl; tauto.
Qed.

Lemma handlePostSubmit_unique now s :
  sigs_unique (App.proposals s) ->
  sigs_unique (App.proposals (handlePostSubmit now s)).
Proof.
  intros H. destruct (App.isAIApproved s) eqn:Ha.
  - destruct (handlePostSubmit_approved now s Ha) as [cat E]. rewrite E.
    constructor; [constructor | exact H].
  - now rewrite handlePostSubmit_blocked.
Qed.

Lemma toggleSignature_unique c now pid s :
  sigs_unique (App.proposals s) ->
  sigs_unique (App.proposals (toggleSignature c now pid s)).
Proof.
  intros H. unfold toggleSignature. destruct (App.user s) as [u|].
  - simpl. now apply sigs_unique_toggle.
  - now destruct c.
Qed.

Lemma updateAdminStatus_unique pid st r s :
  sigs_unique (App.proposals s) ->
  sigs_unique (App.proposals (updateAdminStatus pid st r s)).
Proof. intros H. simpl. now apply sigs_unique_status. Qed.

Lemma check_resolved_store k result s :
  App.proposals (check_resolved k result s) = App.proposals s /\
  App.storage (check_resolved k result s) = App.storage s.
Proof.
  unfold check_resolved. destruct (nth_error (App.inflight s) k); split; reflexivity.
Qed.

Lemma handleAIAnalyze_call_store s :
  App.proposals (handleAIAnalyze_call s) = App.proposals s /\
  App.storage (handleAIAnalyze_call s) = App.storage s.
Proof.
  unfold handleAIAnalyze_call. destruct (_ || _); split; reflexivity.
Qed.

Lemma reachable_saved_current s : reachable s -> saved_current s.
Proof.
  unfold saved_current. induction 1 as [t1 t2 t3 tsig | s e Hs IH | s t1 t2 t3 tsig Hs IH].
  - reflexivity.
  - destruct e; simpl; try exact IH; try reflexivity.
    + destruct (handleAIAnalyze_call_store s) as [E1 E2]. now rewrite E1, E2.
    + destruct (check_resolved_store k result s) as [E1 E2]. now rewrite E1, E2.
    + unfold handlePostSubmit. destruct (App.isAIApproved s); [reflexivity | exact IH].
    + unfold toggleSignature. destruct (App.user s); [reflexivity|].
      destruct confirmed; exact IH.
  - rewrite IH. reflexivity.
Qed.

Lemma step_unique s e :
  sigs_unique (App.proposals s) -> sigs_unique (App.proposals (step s e)).
Proof.
  intros H. destruct e; simpl; try exact H.
  - now rewrite (proj1 (handleAIAnalyze_call_store s)).
  - now rewrite (proj1 (check_resolved_store k result s)).
  - now apply handlePostSubmit_unique.
  - now apply toggleSignature_unique.
  - now apply sigs_unique_status.
Qed.

Lemma reachable_unique s : reachable s -> sigs_unique (App.proposals s).
Proof.
  induction 1 as [t1 t2 t3 tsig | s e Hs IH | s t1 t2 t3 tsig Hs IH].
  - apply sigs_unique_seeds.
  - now apply step_unique.
  - rewrite (reachable_saved_current s Hs). exact IH.
Qed.

(** C6.  In every reachable state no proposal holds two signatures with the
    same [userId], and each of the three store operations keeps it so. *)
Theorem signatures_unique :
  (forall s, reachable s -> sigs_unique (App.proposals s)) /\
  (forall now s, sigs_unique (App.proposals s) ->
     sigs_unique (App.proposals (handlePostSubmit now s))) /\
  (forall pid st r s, sigs_unique (App.proposals s) ->
     sigs_unique (App.proposals (updateAdminStatus pid st r s))) /\
  (forall c now pid s, sigs_unique (App.proposals s) ->
     sigs_unique (App.proposals (toggleSignature c now pid s))).
Proof.
  split; [exact reachable_unique|].
  split; [exact handlePostSubmit_unique|].
  split; [exact updateAdminStatus_unique | exact toggleSignature_unique].
Qed.

Lemma reachable_run s es : reachable s -> reachable (run s es).
Proof.
  revert s. induction es as [|e r IH]; intros s H; [exact H|].
  apply IH. now apply reach_step.
Qed.

Lemma reachable_both_signed : reachable both_signed.
Proof. apply reachable_run. apply reach_init. Qed.

Lemma signatures_unique_witness :
  reachable both_signed /\
  sigs_unique (App.proposals both_signed) /\
  sigs_unique (App.proposals (toggleSignature false T1 1 both_signed)).
Proof.
  split; [exact reachable_both_signed|].
  destruct signatures_unique as [Hr [_ [_ Ht]]].
  split; [exact (Hr both_signed reachable_both_signed)|].
  exact (Ht false T1 1 both_signed (Hr both_signed reachable_both_signed)).
Defined.

(** ** Stale ids and frames *)

Lemma status_absent pid st r ps :
  ~ In pid (ids ps) -> map (status_one pid st r) ps = ps.
Proof.
  intros H. apply map_unchanged. intros p Hp. apply status_one_other.
  intros E. apply H. subst pid. now apply in_map.
Qed.

Lemma toggle_absent u now pid ps :
  ~ In pid (ids ps) -> map (toggle_one u now pid) ps = ps.
Proof.
  intros H. apply map_unchanged. intros p Hp. apply toggle_one_other.
  intros E. apply H. subst pid. now apply in_map.
Qed.

(** C7.  [updateAdminStatus] with an id that no proposal has returns a state
    (it cannot throw) whose collection is the same; the collection is written
    again to the storage as it is and nothing else changes. *)
Theorem updateAdminStatus_absent pid st r s :
  ~ In pid (ids (App.proposals s)) ->
  App.proposals (updateAdminStatus pid st r s) = App.proposals s /\
  updateAdminStatus pid st r s = App.set_proposals s (App.proposals s) /\
  (saved_current s -> updateAdminStatus pid st r s = s).
Proof.
  intros H. unfold updateAdminStatus. rewrite (status_absent pid st r _ H).
  split; [reflexivity|]. split; [reflexivity|].
  unfold saved_current. intros Hs. destruct s; simpl in *. now rewrite Hs.
Qed.

Lemma updateAdminStatus_absent_witness :
  ~ In 5 (ids (App.proposals both_signed)) /\
  App.proposals (updateAdminStatus 5 Coordinating (js "in discussion") both_signed)
  = App.proposals both_signed.
Proof.
  assert (H : ~ In 5 (ids (App.proposals both_signed))).
  { simpl. intros [E|[E|[E|[]]]]; discriminate E. }
  split; [exact H|].
  exact (proj1 (updateAdminStatus_absent 5 Coordinating (js "in discussion")
                  both_signed H)).
Defined.

Lemma toggle_one_frame u now pid p :
  same_but_signatures p (toggle_one u now pid p).
Proof.
  unfold toggle_one, same_but_signatures.
  destruct (Proposal.id p =? pid); [|repeat split].
  destruct (_ >=? 0); repeat split.
Qed.

Lemma status_one_frame pid st r p :
  same_but_status p (status_one pid st r p).
Proof.
  unfold status_one, same_but_status.
  destruct (Proposal.id p =? pid); repeat split.
Qed.

(** C10.  [toggleSignature] and [updateAdminStatus] keep the collection's
    length and order; a proposal whose id is not the target is unchanged in
    every field; in a proposal with the target id only [signatures]
    (toggle), only [status] and [adminResponse] (status update) can differ.
    With an id that no proposal has, [toggleSignature] changes nothing in the
    collection. *)
Theorem store_frame c now pid st r s :
  Forall2 (framed same_but_signatures pid)
    (App.proposals s) (App.proposals (toggleSignature c now pid s)) /\
  Forall2 (framed same_but_status pid)
    (App.proposals s) (App.proposals (updateAdminStatus pid st r s)) /\
  (~ In pid (ids (App.proposals s)) ->
   App.proposals (toggleSignature c now pid s) = App.proposals s).
Proof.
  split; [|split].
  - unfold toggleSignature. destruct (App.user s) as [u|].
    + simpl. apply Forall2_map_self. intros p. split.
      * apply toggle_one_frame.
      * apply toggle_one_other.
    + assert (E : App.proposals (if c then App.set_view s v_login else s) =
                  App.proposals s) by now destruct c.
      rewrite E. rewrite <- (map_id (App.proposals s)) at 2.
      apply Forall2_map_self. intros p. split; [repeat split | reflexivity].
  - simpl. apply Forall2_map_self. intros p. split.
    + apply status_one_frame.
    + apply status_one_other.
  - intros H. unfold toggleSignature. destruct (App.user s) as [u|].
    + simpl. now apply toggle_absent.
    + now destruct c.
Qed.

Lemma store_frame_witness :
  ~ In 5 (ids (App.proposals both_signed)) /\
  App.proposals (toggleSignature false T1 5 both_signed) = App.proposals both_signed.
Proof.
  assert (H : ~ In 5 (ids (App.proposals both_signed))).
  { simpl. intros [E|[E|[E|[]]]]; discriminate E. }
  split; [exact H|].
  exact (proj2 (proj2 (store_frame false T1 5 Received [] both_signed)) H).
Defined.

(** ** Moderation client *)

Lemma FALLBACK_ADVICE_nonempty : FALLBACK_ADVICE <> [].
Proof. intros H. vm_compute in H. discriminate H. Qed.

Lemma analyzeProposal_returns prompt gen parse title content :
  exists r, analyzeProposal prompt gen parse title content = Return r.
Proof.
  unfold analyzeProposal, try_catch, bind.
  destruct (gen _) as [[[text|]]|e]; simpl; [|eexists; reflexivity..].
  destruct (negb (truthy text)); [eexists; reflexivity|].
  destruct (parse text); eexists; reflexivity.
Qed.

(** C2.  [analyzeProposal] always returns a verdict, it never throws; and
    when the call of the service fails (rejected request, response without
    text, text that does not parse) the verdict is that of the [catch]
    block: not appropriate, category その他, no tags, and a non-empty
    advice. *)
Theorem analyzeProposal_fails_closed prompt gen parse title content :
  (exists r, analyzeProposal prompt gen parse title content = Return r) /\
  (moderation_failed prompt gen parse title content ->
   exists advice,
     analyzeProposal prompt gen parse title content =
     Return (AIAnalysisResult.mk false (js "その他") [] None None (Some advice)) /\
     advice <> []).
Proof.
  split; [apply analyzeProposal_returns|].
  intros H. exists FALLBACK_ADVICE. split; [|exact FALLBACK_ADVICE_nonempty].
  unfold moderation_failed in H. unfold analyzeProposal, try_catch, bind.
  destruct H as [[e H]|[H|[H|[text [e [H Hp]]]]]]; rewrite H; simpl; try reflexivity.
  destruct (negb (truthy text)); [reflexivity|]. now rewrite Hp.
Qed.

Lemma analyzeProposal_fails_closed_witness :
  moderation_failed (fun t c => t ++ c)
    (fun _ => Return (Response.mk (Some (js "{oops"))))
    (fun _ => Throw (SyntaxError (js "Unexpected token")))
    (js "T") (js "C") /\
  exists advice,
    analyzeProposal (fun t c => t ++ c)
      (fun _ => Return (Response.mk (Some (js "{oops"))))
      (fun _ => Throw (SyntaxError (js "Unexpected token")))
      (js "T") (js "C") =
    Return (AIAnalysisResult.mk false (js "その他") [] None None (Some advice)) /\
    advice <> [].
Proof.
  assert (H : moderation_failed (fun t c => t ++ c)
    (fun _ => Return (Response.mk (Some (js "{oops"))))
    (fun _ => Throw (SyntaxError (js "Unexpected token")))
    (js "T") (js "C")).
  { right. right. right. eexists. eexists. split; reflexivity. }
  split; [exact H|].
  exact (proj2 (analyzeProposal_fails_closed _ _ _ _ _) H).
Defined.

(** ** Submission gate *)

Lemma toggleSignature_gate c now pid s :
  App.isAIApproved (toggleSignature c now pid s) = App.isAIApproved s /\
  ids (App.proposals (toggleSignature c now pid s)) = ids (App.proposals s).
Proof.
  unfold toggleSignature. destruct (App.user s) as [u|].
  - split; [reflexivity|]. simpl. unfold ids. rewrite map_map.
    apply map_ext. intros p. apply toggle_one_id.
  - destruct c; split; reflexivity.
Qed.

Lemma updateAdminStatus_ids pid st r s :
  ids (App.proposals (updateAdminStatus pid st r s)) = ids (App.proposals s).
Proof.
  simpl. unfold ids. rewrite map_map. apply map_ext. intros p.
  unfold status_one. now destruct (Proposal.id p =? pid).
Qed.

(** A step that is not an approving answer keeps a blocked gate blocked and
    creates no proposal. *)
Lemma step_keeps_blocked s e :
  approving e = false -> App.isAIApproved s = false ->
  App.isAIApproved (step s e) = false /\
  ids (App.proposals (step s e)) = ids (App.proposals s).
Proof.
  intros He Hs. destruct e; simpl in *; try (split; [exact Hs | reflexivity]).
  - split; reflexivity.
  - unfold handleAIAnalyze_call. destruct (_ || _); split; auto.
  - unfold check_resolved. destruct (nth_error _ _); [|split; auto].
    simpl. split; [exact He | reflexivity].
  - rewrite handlePostSubmit_blocked by exact Hs. split; [exact Hs | reflexivity].
  - destruct (toggleSignature_gate confirmed now proposalId s) as [E1 E2].
    rewrite E1. split; [exact Hs | exact E2].
  - split; [exact Hs | apply updateAdminStatus_ids].
Qed.

Lemma run_keeps_blocked es : forall s,
  existsb approving es = false -> App.isAIApproved s = false ->
  App.isAIApproved (run s es) = false /\
  ids (App.proposals (run s es)) = ids (App.proposals s).
Proof.
  induction es as [|e r IH]; intros s He Hs; [split; [exact Hs | reflexivity]|].
  simpl in He. apply orb_false_iff in He. destruct He as [He Hr].
  destruct (step_keeps_blocked s e He Hs) as [H1 H2].
  destruct (IH (step s e) Hr H1) as [H3 H4].
  split; [exact H3 | now rewrite <- H2].
Qed.

(** X23.  An edit of the draft in the approved state withdraws the
    approval: through any further events among which no check is answered
    with an approval, [isAIApproved] stays false, no proposal is created, and
    [handlePostSubmit] does nothing.  (An approving answer ends this, also
    the answer to a check that was made before the edit.) *)
Theorem edit_blocks_submit s field value es now :
  App.isAIApproved s = true ->
  existsb approving es = false ->
  let s' := run (handleInputChange field value s) es in
  App.isAIApproved s' = false /\
  ids (App.proposals s') = ids (App.proposals s) /\
  handlePostSubmit now s' = s'.
Proof.
  intros _ Hes s'.
  destruct (run_keeps_blocked es (handleInputChange field value s) Hes eq_refl)
    as [H1 H2].
  split; [exact H1|]. split; [exact H2|]. now apply handlePostSubmit_blocked.
Qed.

Lemma edit_blocks_submit_witness :
  App.isAIApproved (run first_start approved_with_pending) = true /\
  existsb approving [ClickCheck; SubmitForm T1; ClickSign false T1 1] = false /\
  handlePostSubmit T1
    (run (handleInputChange f_content (js "bad") (run first_start approved_with_pending))
         [ClickCheck; SubmitForm T1; ClickSign false T1 1]) =
  run (handleInputChange f_content (js "bad") (run first_start approved_with_pending))
      [ClickCheck; SubmitForm T1; ClickSign false T1 1].
Proof.
  split; [reflexivity|]. split; [reflexivity|].
  exact (proj2 (proj2 (edit_blocks_submit (run first_start approved_with_pending)
                         f_content (js "bad")
                         [ClickCheck; SubmitForm T1; ClickSign false T1 1] T1
                         eq_refl eq_refl))).
Defined.

(** C4 fails on the code at this input.  The page allows every event of
    [approved_with_pending]; it ends approved with the first check still in
    flight.  The content is then edited, which blocks the submit; the answer
    to the first check approves; no new check was made, and the submit
    creates proposal 4 with the edited content, which no check has seen. *)
Lemma edit_then_stale_answer_unblocks :
  all_enabled first_start
    (approved_with_pending ++
     [InputChange f_content (js "bad"); CheckResolved 0 verdict_ok; SubmitForm T1]) = true /\
  App.isAIApproved (run first_start approved_with_pending) = true /\
  existsb is_check_click [CheckResolved 0 verdict_ok] = false /\
  let edited :=
    handleInputChange f_content (js "bad") (run first_start approved_with_pending) in
  App.isAIApproved edited = false /\
  map (fun p => (Proposal.id p, Proposal.content p))
    (App.proposals
       (handlePostSubmit T1 (run edited [CheckResolved 0 verdict_ok]))) =
  (4, js "bad") ::
  map (fun p => (Proposal.id p, Proposal.content p)) (App.proposals edited).
Proof. vm_compute. repeat split. Qed.

(** The answer to a check in flight sets the approval to the flag of the
    verdict, whatever the form holds by then: the title and the content the
    check was called with are not looked at. *)
Lemma check_resolved_ignores_form k result s bound :
  nth_error (App.inflight s) k = Some bound ->
  App.isAIApproved (check_resolved k result s) = AIAnalysisResult.isAppropriate result.
Proof. intros H. unfold check_resolved. now rewrite H. Qed.

(** C5 fails on the code at this input.  The check is bound to the title
    "T" and the content "C"; the content is replaced by "bad" while the
    check is in flight; the approving answer is accepted all the same.  When
    it proposes no rewording, the submit creates proposal 4 with the content
    that was never checked; when it does, the rewording of the old draft
    takes the place of the edited one. *)
Lemma stale_verdict_accepted :
  all_enabled first_start
    (edited_in_flight ++ [CheckResolved 0 verdict_ok; SubmitForm T1]) = true /\
  let s := run first_start edited_in_flight in
  App.inflight s = [(js "T", js "C")] /\
  (PostForm.title (App.postForm s), PostForm.content (App.postForm s)) =
    (js "T", js "bad") /\
  App.isAIApproved (check_resolved 0 verdict_ok s) = true /\
  map (fun p => (Proposal.id p, Proposal.content p))
    (App.proposals (handlePostSubmit T1 (check_resolved 0 verdict_ok s))) =
  (4, js "bad") :: map (fun p => (Proposal.id p, Proposal.content p)) (App.proposals s) /\
  App.isAIApproved (check_resolved 0 verdict_reworded s) = true /\
  App.postForm (check_resolved 0 verdict_reworded s) =
    PostForm.mk (js "T'") (js "C'") (js "校則").
Proof. vm_compute. repeat split. Qed.

(** ** Sorting *)

Section Sort.
Context {A : Type} (key : A -> Z).

Lemma sort_insert_perm x l : Permutation (x :: l) (sort_insert (desc_by key) x l).
Proof.
  induction l as [|y r IH]; simpl; [reflexivity|].
  destruct (desc_by key x y <=? 0); [reflexivity|].
  rewrite perm_swap. now apply perm_skip.
Qed.

Lemma Array_sort_perm l : Permutation l (Array_sort (desc_by key) l).
Proof.
  induction l as [|x r IH]; simpl; [constructor|].
  rewrite <- sort_insert_perm. now apply perm_skip.
Qed.

Lemma sort_insert_Forall (P : A -> Prop) x l :
  P x -> Forall P l -> Forall P (sort_insert (desc_by key) x l).
Proof.
  intros Hx Hl. eapply Permutation_Forall; [apply sort_insert_perm|].
  now constructor.
Qed.

Lemma sort_insert_sorted x l :
  StronglySorted (not_below key) l ->
  StronglySorted (not_below key) (sort_insert (desc_by key) x l).
Proof.
  induction 1 as [|y r Hr IH Hy]; simpl; [repeat constructor|].
  unfold desc_by at 1. destruct (Z.leb_spec (key y - key x) 0) as [Hle|Hgt].
  - constructor; [now constructor|]. constructor.
    + unfold not_below. lia.
    + eapply Forall_impl; [|exact Hy]. unfold not_below. intros z Hz. lia.
  - constructor; [exact IH|]. apply sort_insert_Forall; [|exact Hy].
    unfold not_below. lia.
Qed.

Lemma Array_sort_sorted l :
  StronglySorted (not_below key) (Array_sort (desc_by key) l).
Proof.
  induction l as [|x r IH]; simpl; [constructor|]. now apply sort_insert_sorted.
Qed.

Lemma sort_insert_with_key k x l :
  with_key key k (sort_insert (desc_by key) x l) = with_key key k (x :: l).
Proof.
  unfold with_key. induction l as [|y r IH]; simpl; [reflexivity|].
  unfold desc_by at 1. destruct (Z.leb_spec (key y - key x) 0) as [Hle|Hgt].
  - reflexivity.
  - simpl. rewrite IH. simpl.
    destruct (Z.eqb_spec (key x) k) as [Ex|Nx]; [|reflexivity].
    destruct (Z.eqb_spec (key y) k) as [Ey|Ny]; [lia | reflexivity].
Qed.

(** The sort is stable: the elements of one key keep their order. *)
Lemma Array_sort_stable k l :
  with_key key k (Array_sort (desc_by key) l) = with_key key k l.
Proof.
  induction l as [|x r IH]; simpl; [reflexivity|].
  rewrite sort_insert_with_key. unfold with_key in *. simpl. now rewrite IH.
Qed.

End Sort.

Lemma filter_filter {A} (f g : A -> bool) l :
  filter g (filter f l) = filter (fun x => f x && g x) l.
Proof.
  induction l as [|x r IH]; simpl; [reflexivity|].
  destruct (f x); simpl; [destruct (g x)|]; now rewrite IH.
Qed.

Lemma filter_all {A} (l : list A) : filter (fun _ => true) l = l.
Proof. induction l as [|x r IH]; simpl; [reflexivity | now rewrite IH]. Qed.

(** [filteredProposals] sorts the proposals that pass both filters. *)
Lemma filteredProposals_eq getTime toLowerCase ps cat term order :
  filteredProposals getTime toLowerCase ps cat term order =
  match order with
  | newest => Array_sort (desc_by (created getTime))
  | by_signatures => Array_sort (desc_by signature_count)
  end (filter (visible toLowerCase cat term) ps).
Proof.
  unfold filteredProposals.
  assert (E : (if truthy term
               then filter (fun p =>
                      includes (toLowerCase (Proposal.title p)) (toLowerCase term) ||
                      includes (toLowerCase (Proposal.content p)) (toLowerCase term))
                      (if negb (str_eqb cat ALL)
                       then filter (fun p => str_eqb (Proposal.category p) cat) ps
                       else ps)
               else if negb (str_eqb cat ALL)
                    then filter (fun p => str_eqb (Proposal.category p) cat) ps
                    else ps)
              = filter (visible toLowerCase cat term) ps).
  { unfold visible. destruct (truthy term), (negb (str_eqb cat ALL)); simpl.
    - apply filter_filter.
    - reflexivity.
    - apply filter_ext. intros p. now rewrite andb_true_r.
    - symmetry. apply filter_all. }
  simpl. rewrite E. destruct order; reflexivity.
Qed.

(** C8.  Of the proposals that pass the filters (all of them when no filter
    is set), [filteredProposals] returns a permutation which, in the order
    by signatures, is non-increasing in the number of signatures and, in the
    order newest, non-increasing in the creation time; in both, the
    proposals of equal key keep the order they have in the collection. *)
Theorem filteredProposals_sorted getTime toLowerCase ps cat term :
  let shown := filter (visible toLowerCase cat term) ps in
  let by_sig := filteredProposals getTime toLowerCase ps cat term by_signatures in
  let by_new := filteredProposals getTime toLowerCase ps cat term newest in
  StronglySorted (not_below signature_count) by_sig /\
  StronglySorted (not_below (created getTime)) by_new /\
  Permutation shown by_sig /\
  Permutation shown by_new /\
  (forall n, with_key signature_count n by_sig = with_key signature_count n shown) /\
  (forall t, with_key (created getTime) t by_new = with_key (created getTime) t shown) /\
  filter (visible toLowerCase ALL []) ps = ps.
Proof.
  intros shown by_sig by_new. unfold by_sig, by_new.
  rewrite !filteredProposals_eq. fold shown.
  split; [apply Array_sort_sorted|]. split; [apply Array_sort_sorted|].
  split; [apply Array_sort_perm|]. split; [apply Array_sort_perm|].
  split; [intros n; apply Array_sort_stable|].
  split; [intros t; apply Array_sort_stable|].
  apply filter_all.
Qed.

(** ** Tag tokens *)

Lemma nonspace_run_split s :
  exists rest,
    s = nonspace_run s ++ rest /\
    Forall (fun d => is_space d = false) (nonspace_run s) /\
    (rest = [] \/ exists sp r, rest = sp :: r /\ is_space sp = true).
Proof.
  induction s as [|c r IH]; simpl.
  - exists []. repeat split; [constructor | now left].
  - destruct (is_space c) eqn:Hc.
    + exists (c :: r). repeat split; [constructor | right; eauto].
    + destruct IH as [rest [E [Hf Hr]]]. exists rest. repeat split.
      * simpl. now rewrite <- E.
      * now constructor.
      * exact Hr.
Qed.

Lemma match_all_skip a b : match_all (length a) (a ++ b) = match_all 0 b.
Proof. induction a as [|c r IH]; simpl; [reflexivity | exact IH]. Qed.

Lemma match_here_None s : match_here s = None <-> ~ starts_token s.
Proof.
  split.
  - intros H [c [d [r [-> [Hc Hd]]]]]. simpl in H. now rewrite Hc, Hd in H.
  - intros H. destruct s as [|c r]; [reflexivity|]. simpl.
    destruct (is_marker c) eqn:Hc; [|reflexivity].
    destruct r as [|d r']; [reflexivity|]. simpl.
    destruct (is_space d) eqn:Hd; [reflexivity|].
    exfalso. apply H. exists c, d, r'. repeat split; assumption.
Qed.

Lemma match_all_tokens_bounded n : forall s,
  (length s <= n)%nat -> tokens_of s (match_all 0 s).
Proof.
  induction n as [|n IH]; intros s Hn.
  - destruct s; [constructor | simpl in Hn; lia].
  - destruct s as [|c r]; [constructor|].
    simpl in Hn. cbn [match_all].
    destruct (match_here (c :: r)) as [tok|] eqn:Hm.
    + simpl in Hm. destruct (is_marker c) eqn:Hc; [|discriminate].
      destruct (nonspace_run_split r) as [rest [E [Hf Hr]]].
      destruct (nonspace_run r) as [|d body] eqn:Hrun; [discriminate|].
      injection Hm as <-.
      replace (length (c :: d :: body) - 1)%nat with (length (d :: body))
        by (simpl; lia).
      assert (Hlen : (length rest <= n)%nat).
      { rewrite E in Hn. rewrite length_app in Hn. simpl in Hn. lia. }
      rewrite E. rewrite match_all_skip.
      apply (tokens_take c (d :: body) rest); try assumption; [discriminate|].
      now apply IH.
    + apply tokens_pass; [now apply match_here_None|]. apply IH. lia.
Qed.

(** The matches of the pattern are the tokens of the grammar. *)
Lemma match_all_tokens s : tokens_of s (match_all 0 s).
Proof. now apply (match_all_tokens_bounded (length s)). Qed.

Lemma nonspace_run_app body rest :
  Forall (fun d => is_space d = false) body ->
  (rest = [] \/ exists sp r, rest = sp :: r /\ is_space sp = true) ->
  nonspace_run (body ++ rest) = body.
Proof.
  intros Hb Hr. induction Hb as [|d body Hd Hb IH]; simpl.
  - destruct Hr as [->|[sp [r [-> Hsp]]]]; [reflexivity|]. simpl. now rewrite Hsp.
  - now rewrite Hd, IH.
Qed.

(** The grammar determines the list of tokens. *)
Lemma tokens_of_unique s l : tokens_of s l -> l = match_all 0 s.
Proof.
  induction 1 as [|c s l Hns Hs IH|c body rest l Hc Hne Hb Hr Hs IH].
  - reflexivity.
  - cbn [match_all]. apply match_here_None in Hns. now rewrite Hns.
  - cbn [match_all]. simpl match_here. rewrite Hc.
    rewrite (nonspace_run_app body rest Hb Hr).
    destruct body as [|d body']; [congruence|].
    replace (length (c :: d :: body') - 1)%nat with (length (d :: body'))
      by (simpl; lia).
    now rewrite match_all_skip, IH.
Qed.

Lemma has_tag_cons c s : has_tag s -> has_tag (c :: s).
Proof.
  intros [pre [m [d [post [E H]]]]]. exists (c :: pre), m, d, post.
  split; [simpl; now rewrite E | exact H].
Qed.

Lemma has_tagb_complete s : has_tag s -> has_tagb s = true.
Proof.
  intros [pre [c [d [post [-> [Hc Hd]]]]]].
  induction pre as [|x pre IH]; simpl.
  - now rewrite Hc, Hd.
  - destruct (pre ++ c :: d :: post) eqn:E; [now destruct pre|].
    rewrite IH. apply orb_true_r.
Qed.

Lemma starts_token_has_tag s : starts_token s -> has_tag s.
Proof.
  intros [c [d [r [-> H]]]]. exists [], c, d, r. split; [reflexivity | exact H].
Qed.

Lemma no_tag_no_match s : ~ has_tag s -> match_all 0 s = [].
Proof.
  induction s as [|c r IH]; intros H; [reflexivity|]. cbn [match_all].
  assert (Hm : match_here (c :: r) = None).
  { apply match_here_None. intros Hs. apply H. now apply starts_token_has_tag. }
  rewrite Hm. apply IH. intros Hr. apply H. now apply has_tag_cons.
Qed.

(** ** Tag counts *)

Lemma or_zero_eq o : or_zero o = match o with Some v => v | None => 0 end.
Proof.
  destruct o as [v|]; simpl; [|reflexivity].
  destruct (Z.eqb_spec v 0); congruence.
Qed.

Lemma get_assign t t' v cs :
  get t (assign t' v cs) = if str_eqb t' t then Some v else get t cs.
Proof.
  induction cs as [|[k w] r IH]; simpl; [reflexivity|].
  destruct (str_eqb k t') eqn:Hk; simpl.
  - apply str_eqb_eq in Hk. subst k. now destruct (str_eqb t' t).
  - rewrite IH. destruct (str_eqb k t) eqn:Hkt; [|reflexivity].
    apply str_eqb_eq in Hkt. apply str_eqb_neq in Hk.
    destruct (str_eqb t' t) eqn:Ht; [|reflexivity].
    apply str_eqb_eq in Ht. congruence.
Qed.

Lemma get_None t cs : get t cs = None <-> ~ In t (keys cs).
Proof.
  induction cs as [|[k w] r IH]; simpl; [tauto|].
  destruct (str_eqb k t) eqn:Hk.
  - apply str_eqb_eq in Hk. split; [discriminate | intros H; exfalso; auto].
  - apply str_eqb_neq in Hk. rewrite IH. tauto.
Qed.

Lemma get_In t n cs : NoDup (keys cs) -> In (t, n) cs -> get t cs = Some n.
Proof.
  induction cs as [|[k w] r IH]; simpl; [tauto|]. intros Hnd Hin.
  inversion Hnd as [|? ? Hnin Hr]; subst.
  destruct Hin as [E|Hin].
  - injection E as -> ->. now rewrite str_eqb_refl.
  - destruct (str_eqb k t) eqn:Hk; [|now apply IH].
    apply str_eqb_eq in Hk. subst k. exfalso. apply Hnin.
    change t with (fst (t, n)). now apply in_map.
Qed.

Lemma In_get t n cs : get t cs = Some n -> In (t, n) cs.
Proof.
  induction cs as [|[k w] r IH]; simpl; [discriminate|].
  destruct (str_eqb k t) eqn:Hk.
  - apply str_eqb_eq in Hk. subst k. intros E. injection E as ->. now left.
  - intros H. right. now apply IH.
Qed.

Lemma keys_assign t v cs :
  keys (assign t v cs) =
  match get t cs with Some _ => keys cs | None => keys cs ++ [t] end.
Proof.
  unfold keys. induction cs as [|[k w] r IH]; simpl; [reflexivity|].
  destruct (str_eqb k t) eqn:Hk; simpl; [reflexivity|].
  rewrite IH. now destruct (get t r).
Qed.

Lemma keys_count_tag cs t :
  (forall k, In k (keys (count_tag cs t)) <-> In k (keys cs) \/ k = t) /\
  (NoDup (keys cs) -> NoDup (keys (count_tag cs t))).
Proof.
  unfold count_tag. rewrite keys_assign. destruct (get t cs) as [v|] eqn:Hg.
  - split; [|tauto]. intros k. split; [tauto|]. intros [H|H]; [exact H|].
    subst k. apply In_get in Hg. change t with (fst (t, v)). now apply in_map.
  - split.
    + intros k. rewrite in_app_iff. simpl. intuition.
    + intros Hnd. apply (Permutation_NoDup (Permutation_cons_append _ t)).
      constructor; [now apply get_None | exact Hnd].
Qed.

Lemma occurrences_cons t x toks :
  occurrences t (x :: toks) =
  (if str_eqb x t then 1 else 0) + occurrences t toks.
Proof.
  unfold occurrences, str_eqb. simpl.
  destruct (list_eq_dec N.eq_dec x t); lia.
Qed.

Lemma fold_count_get toks : forall cs t,
  or_zero (get t (fold_left count_tag toks cs)) =
  or_zero (get t cs) + occurrences t toks.
Proof.
  induction toks as [|x r IH]; intros cs t; simpl.
  - unfold occurrences. simpl. lia.
  - rewrite IH, occurrences_cons. unfold count_tag. rewrite get_assign.
    destruct (str_eqb x t) eqn:Hx.
    + apply str_eqb_eq in Hx. subst x. rewrite !or_zero_eq. lia.
    + lia.
Qed.

Lemma fold_count_keys toks : forall cs,
  (forall k, In k (keys (fold_left count_tag toks cs)) <-> In k (keys cs) \/ In k toks) /\
  (NoDup (keys cs) -> NoDup (keys (fold_left count_tag toks cs))).
Proof.
  induction toks as [|x r IH]; intros cs; simpl.
  - split; [intros k; tauto | tauto].
  - destruct (IH (count_tag cs x)) as [H1 H2].
    destruct (keys_count_tag cs x) as [H3 H4]. split.
    + intros k. rewrite H1, H3. intuition.
    + intros Hnd. auto.
Qed.

Lemma count_proposal_eq cs p :
  count_proposal cs p = fold_left count_tag (match_all 0 (Proposal.content p)) cs.
Proof.
  unfold count_proposal, String_match_tags.
  now destruct (match_all 0 (Proposal.content p)).
Qed.

Lemma fold_count_proposal ps : forall cs,
  fold_left count_proposal ps cs = fold_left count_tag (all_tokens ps) cs.
Proof.
  induction ps as [|p r IH]; intros cs; simpl; [reflexivity|].
  rewrite fold_left_app, IH. now rewrite count_proposal_eq.
Qed.

Lemma tag_counts_eq ps : tag_counts ps = fold_left count_tag (all_tokens ps) [].
Proof. apply fold_count_proposal. Qed.

Lemma tag_counts_keys ps : NoDup (keys (tag_counts ps)).
Proof.
  rewrite tag_counts_eq. apply (proj2 (fold_count_keys (all_tokens ps) [])).
  constructor.
Qed.

(** [counts] holds exactly the tokens that occur, each with the number of
    its occurrences. *)
Lemma tag_counts_In ps t n :
  In (t, n) (tag_counts ps) <->
  In t (all_tokens ps) /\ n = occurrences t (all_tokens ps).
Proof.
  pose proof (tag_counts_keys ps) as Hnd.
  pose proof (fold_count_get (all_tokens ps) [] t) as Hget.
  pose proof (proj1 (fold_count_keys (all_tokens ps) []) t) as Hkeys.
  rewrite <- tag_counts_eq in Hget, Hkeys. simpl in Hget, Hkeys. split.
  - intros Hin. split.
    + assert (Hk : In t (keys (tag_counts ps)))
        by (change t with (fst (t, n)); now apply in_map).
      apply Hkeys in Hk. tauto.
    + rewrite (get_In t n _ Hnd Hin) in Hget. rewrite or_zero_eq in Hget. lia.
  - intros [Hin ->].
    assert (Hk : In t (keys (tag_counts ps))) by (apply Hkeys; now right).
    destruct (get t (tag_counts ps)) as [v|] eqn:Hg.
    + rewrite or_zero_eq in Hget. rewrite <- Hget. now apply In_get.
    + apply get_None in Hg. contradiction.
Qed.

Lemma occurrences_pos t toks : In t toks -> 1 <= occurrences t toks.
Proof.
  intros H. unfold occurrences.
  apply (count_occ_In (list_eq_dec N.eq_dec)) in H. lia.
Qed.

Lemma StronglySorted_app_inv {A} (R : A -> A -> Prop) a b :
  StronglySorted R (a ++ b) -> forall x y, In x a -> In y b -> R x y.
Proof.
  induction a as [|c r IH]; simpl; intros H x y Hx Hy; [tauto|].
  inversion H as [|? ? Hs Hf]; subst. destruct Hx as [->|Hx].
  - rewrite Forall_forall in Hf. apply Hf. apply in_or_app. now right.
  - now apply IH.
Qed.

Lemma trendingTags_split ps :
  Array_sort (desc_by snd) (tag_counts ps) =
  trendingTags ps ++ skipn 5 (Array_sort (desc_by snd) (tag_counts ps)).
Proof. unfold trendingTags. symmetry. apply firstn_skipn. Qed.

Lemma trendingTags_In ps e : In e (trendingTags ps) -> In e (tag_counts ps).
Proof.
  intros H. apply (Permutation_in e (Permutation_sym (Array_sort_perm snd (tag_counts ps)))).
  rewrite trendingTags_split. apply in_or_app. now left.
Qed.

Lemma trendingTags_contents p1 p2 c1 c2 :
  Proposal.content p1 = c1 -> Proposal.content p2 = c2 ->
  trendingTags [p1; p2] =
  firstn 5 (Array_sort cmp_count
              (fold_left count_tag (match_all 0 c1 ++ match_all 0 c2) [])).
Proof.
  intros <- <-. unfold trendingTags. rewrite tag_counts_eq.
  unfold all_tokens. simpl. now rewrite app_nil_r.
Qed.

Lemma tag_counts_distinct ps :
  length (tag_counts ps) = length (distinct_tokens ps).
Proof.
  rewrite <- (length_map fst (tag_counts ps)). apply Permutation_length.
  apply NoDup_Permutation.
  - apply tag_counts_keys.
  - apply NoDup_nodup.
  - intros t. unfold distinct_tokens. rewrite nodup_In, tag_counts_eq.
    rewrite (proj1 (fold_count_keys (all_tokens ps) []) t). simpl. tauto.
Qed.

(** C9.  The tokens counted ([all_tokens], the matches of the pattern in
    every content) are exactly those of the grammar: a marker and the run of
    one or more code units up to the next space or the end.
    [trendingTags] returns five entries, or as many as there are different
    tokens when they are fewer; the entries have different tokens and stand
    in non-increasing order of count; each entry is a token that occurs, with
    the number of its occurrences in all contents; with five different
    tokens or fewer every token that occurs is returned, and in any case a
    token that occurs and is not returned occurs no more often than any
    returned one.  For the two contents "#a #a #b" and "#a #c", in either
    order, the first entry is ("#a", 3) and the second has count 1.  When no
    content holds a marker followed by a code unit that is no space, the
    result is empty. *)
Theorem trendingTags_top ps :
  let toks := all_tokens ps in
  let top := trendingTags ps in
  (forall p l, tokens_of (Proposal.content p) l <->
               l = match_all 0 (Proposal.content p)) /\
  length top = Nat.min 5 (length (distinct_tokens ps)) /\
  NoDup (keys top) /\
  StronglySorted (not_below snd) top /\
  (forall t n, In (t, n) top -> In t toks /\ n = occurrences t toks /\ 1 <= n) /\
  ((length (distinct_tokens ps) <= 5)%nat ->
   forall t, In t toks -> In (t, occurrences t toks) top) /\
  (forall t, In t toks ->
     In (t, occurrences t toks) top \/
     forall e, In e top -> occurrences t toks <= snd e) /\
  (forall p1 p2,
     Proposal.content p1 = js "#a #a #b" -> Proposal.content p2 = js "#a #c" ->
     (exists t rest, trendingTags [p1; p2] = (js "#a", 3) :: (t, 1) :: rest) /\
     (exists t rest, trendingTags [p2; p1] = (js "#a", 3) :: (t, 1) :: rest)) /\
  ((forall p, In p ps -> ~ has_tag (Proposal.content p)) -> top = []).
Proof.
  intros toks top.
  pose proof (Array_sort_sorted snd (tag_counts ps)) as Hsorted.
  pose proof (Array_sort_perm snd (tag_counts ps)) as Hperm.
  pose proof (trendingTags_split ps) as Hsplit. fold top in Hsplit.
  split.
  { intros p l. split; [apply tokens_of_unique | intros ->; apply match_all_tokens]. }
  split.
  { unfold top, trendingTags. rewrite length_firstn. f_equal.
    rewrite <- tag_counts_distinct. symmetry. exact (Permutation_length Hperm). }
  split.
  { assert (Hnd : NoDup (keys (Array_sort (desc_by snd) (tag_counts ps)))).
    { eapply Permutation_NoDup; [apply Permutation_map; exact Hperm|].
      apply tag_counts_keys. }
    rewrite Hsplit in Hnd. unfold keys in Hnd. rewrite map_app in Hnd.
    now apply NoDup_app_remove_r in Hnd. }
  split.
  { rewrite Hsplit in Hsorted. clear Hsplit.
    induction top as [|e r IH]; [constructor|].
    simpl in Hsorted. inversion Hsorted as [|? ? Hs Hf]; subst.
    constructor; [now apply IH|]. now apply Forall_app in Hf. }
  split.
  { intros t n Hin. apply trendingTags_In, tag_counts_In in Hin.
    destruct Hin as [Hin ->]. repeat split; [exact Hin|].
    now apply occurrences_pos. }
  split.
  { intros Hfew t Hin.
    assert (Hc : In (t, occurrences t toks) (tag_counts ps))
      by (apply tag_counts_In; split; [exact Hin | reflexivity]).
    apply (Permutation_in _ Hperm) in Hc.
    assert (Hl : length (Array_sort cmp_count (tag_counts ps)) =
                 length (tag_counts ps))
      by (symmetry; exact (Permutation_length Hperm)).
    unfold top, trendingTags.
    rewrite firstn_all2; [exact Hc | rewrite Hl, tag_counts_distinct; exact Hfew]. }
  split.
  { intros t Hin.
    assert (Hc : In (t, occurrences t toks) (tag_counts ps))
      by (apply tag_counts_In; split; [exact Hin | reflexivity]).
    apply (Permutation_in _ Hperm) in Hc. rewrite Hsplit in Hc.
    apply in_app_or in Hc. destruct Hc as [Hc|Hc]; [now left|].
    right. intros e He. rewrite Hsplit in Hsorted.
    exact (StronglySorted_app_inv _ _ _ Hsorted e _ He Hc). }
  split.
  { intros p1 p2 H1 H2. split.
    - rewrite (trendingTags_contents p1 p2 _ _ H1 H2). vm_compute.
      eexists. eexists. reflexivity.
    - rewrite (trendingTags_contents p2 p1 _ _ H2 H1). vm_compute.
      eexists. eexists. reflexivity. }
  intros Hno. unfold top, trendingTags. rewrite tag_counts_eq.
  assert (E : all_tokens ps = []).
  { unfold all_tokens. clear -Hno. induction ps as [|p r IH]; [reflexivity|].
    simpl. rewrite (no_tag_no_match _ (Hno p (or_introl eq_refl))).
    apply IH. intros q Hq. apply Hno. now right. }
  now rewrite E.
Qed.

Lemma trendingTags_top_witness :
  (Proposal.content (Proposal.mk 1 [] (js "#a #a #b") [] Received [] [] []) = js "#a #a #b" /\
   Proposal.content (Proposal.mk 2 [] (js "#a #c") [] Received [] [] []) = js "#a #c") /\
  (exists t rest,
     trendingTags [Proposal.mk 1 [] (js "#a #a #b") [] Received [] [] [];
                   Proposal.mk 2 [] (js "#a #c") [] Received [] [] []]
     = (js "#a", 3) :: (t, 1) :: rest) /\
  (forall p, In p [Proposal.mk 3 [] (js "no tag # here") [] Received [] [] []] ->
             ~ has_tag (Proposal.content p)) /\
  trendingTags [Proposal.mk 3 [] (js "no tag # here") [] Received [] [] []] = [].
Proof.
  split; [split; reflexivity|].
  split.
  { exact (proj1 (proj1 (proj2 (proj2 (proj2 (proj2 (proj2 (proj2 (proj2
             (trendingTags_top []))))))))
             (Proposal.mk 1 [] (js "#a #a #b") [] Received [] [] [])
             (Proposal.mk 2 [] (js "#a #c") [] Received [] [] [])
             eq_refl eq_refl)). }
  assert (H : forall p,
             In p [Proposal.mk 3 [] (js "no tag # here") [] Received [] [] []] ->
             ~ has_tag (Proposal.content p)).
  { intros p [<-|[]] Ht. apply has_tagb_complete in Ht.
    vm_compute in Ht. discriminate Ht. }
  split; [exact H|].
  exact (proj2 (proj2 (proj2 (proj2 (proj2 (proj2 (proj2 (proj2
           (trendingTags_top
              [Proposal.mk 3 [] (js "no tag # here") [] Received [] [] []]))))))))
           H).
Defined.

(** * Further properties of the code *)

(** ** The collection over time *)

Lemma handlePostSubmit_creates now s :
  App.isAIApproved s = true ->
  App.proposals (handlePostSubmit now s) = newProposal now s :: App.proposals s.
Proof. intros H. unfold handlePostSubmit. now rewrite H. Qed.

Section Projection.
Context {B : Type} (g : Proposal.t -> B).
Hypothesis g_signatures : forall p x, g (Proposal.with_signatures p x) = g p.
Hypothesis g_status : forall p st r, g (Proposal.with_status p st r) = g p.

Lemma toggle_one_projection u now pid p : g (toggle_one u now pid p) = g p.
Proof.
  unfold toggle_one. destruct (Proposal.id p =? pid); [|reflexivity].
  destruct (_ >=? 0); apply g_signatures.
Qed.

Lemma status_one_projection pid st r p : g (status_one pid st r p) = g p.
Proof.
  unfold status_one. destruct (Proposal.id p =? pid); [apply g_status | reflexivity].
Qed.

(** A step either keeps the projection of every proposal, in place, or is
    the submit of an approved draft and puts one new proposal in front. *)
Lemma step_projection s e :
  map g (App.proposals (step s e)) = map g (App.proposals s) \/
  exists now, e = SubmitForm now /\ App.isAIApproved s = true /\
              App.proposals (step s e) = newProposal now s :: App.proposals s.
Proof.
  destruct e; simpl; try (left; reflexivity).
  - left. now rewrite (proj1 (handleAIAnalyze_call_store s)).
  - left. now rewrite (proj1 (check_resolved_store k result s)).
  - destruct (App.isAIApproved s) eqn:Ha.
    + right. exists now. repeat split. now apply handlePostSubmit_creates.
    + left. now rewrite handlePostSubmit_blocked.
  - left. unfold toggleSignature. destruct (App.user s) as [u|].
    + simpl. rewrite map_map. apply map_ext. intros p. apply toggle_one_projection.
    + now destruct confirmed.
  - left. rewrite map_map. apply map_ext. intros p. apply status_one_projection.
Qed.

Lemma run_projection es : forall s,
  exists created,
    map g (App.proposals (run s es)) = created ++ map g (App.proposals s).
Proof.
  induction es as [|e r IH]; intros s; [now exists []|].
  destruct (IH (step s e)) as [created E].
  change (run s (e :: r)) with (run (step s e) r). rewrite E.
  destruct (step_projection s e) as [H|[now [_ [_ H]]]]; rewrite H.
  - now exists created.
  - exists (created ++ [g (newProposal now s)]). simpl. now rewrite <- app_assoc.
Qed.

End Projection.

(** X2.  No event removes, moves or rewrites a proposal: after any events the
    collection is the old one, with the id, title, content, category and
    timestamp of every proposal as they were, behind the proposals created in
    between. *)
Theorem run_keeps_history s es :
  exists created,
    map fixed_fields (App.proposals (run s es)) =
    created ++ map fixed_fields (App.proposals s).
Proof. now apply run_projection. Qed.

Lemma step_ids s e :
  ids (App.proposals (step s e)) = ids (App.proposals s) \/
  ids (App.proposals (step s e)) = newId (App.proposals s) :: ids (App.proposals s).
Proof.
  destruct (step_projection Proposal.id (fun _ _ => eq_refl) (fun _ _ _ => eq_refl) s e)
    as [H|[now [_ [_ H]]]]; [now left|].
  right. unfold ids. now rewrite H.
Qed.

Lemma reachable_NoDup_ids s : reachable s -> NoDup (ids (App.proposals s)).
Proof.
  induction 1 as [t1 t2 t3 tsig | s e Hs IH | s t1 t2 t3 tsig Hs IH].
  - simpl. repeat constructor; simpl; intuition discriminate.
  - destruct (step_ids s e) as [E|E]; rewrite E; [exact IH|].
    constructor; [apply newId_fresh | exact IH].
  - rewrite (reachable_saved_current s Hs). exact IH.
Qed.

(** X1.  In every reachable state the ids of the proposals are pairwise
    different: the seeds have the ids 1, 2 and 3, a new proposal gets an id
    above all of them, and no operation changes an id. *)
Theorem reachable_ids_unique s : reachable s -> NoDup (ids (App.proposals s)).
Proof. exact (reachable_NoDup_ids s). Qed.

Lemma reachable_ids_unique_witness : NoDup (ids (App.proposals both_signed)).
Proof. exact (reachable_ids_unique both_signed reachable_both_signed). Defined.

Lemma CATEGORY_OTHER_truthy : truthy CATEGORY_OTHER = true.
Proof. reflexivity. Qed.

Lemma truthy_nonempty s : truthy s = true <-> s <> [].
Proof. destruct s; simpl; split; congruence. Qed.

Lemma or_else_truthy o d : truthy d = true -> truthy (or_else o d) = true.
Proof.
  intros H. unfold or_else. destruct o as [s|]; [|exact H].
  destruct (truthy s) eqn:E; [exact E | exact H].
Qed.

Lemma finalCategory_truthy s : truthy (finalCategory s) = true.
Proof.
  unfold finalCategory.
  destruct (truthy (PostForm.category (App.postForm s))) eqn:E; [exact E|].
  apply or_else_truthy. exact CATEGORY_OTHER_truthy.
Qed.

(** X3.  In every reachable state every proposal has a category that is not
    the empty string: a proposal is created with the category of the form,
    else the detected one, else その他, and no operation changes it. *)
Theorem reachable_category_nonempty s :
  reachable s -> Forall (fun p => Proposal.category p <> []) (App.proposals s).
Proof.
  induction 1 as [t1 t2 t3 tsig | s e Hs IH | s t1 t2 t3 tsig Hs IH].
  - simpl. repeat constructor; discriminate.
  - destruct (step_projection Proposal.category (fun _ _ => eq_refl)
                (fun _ _ _ => eq_refl) s e) as [E|[now [_ [_ E]]]].
    + apply (proj1 (Forall_map Proposal.category (fun c => c <> []) _)).
      rewrite E. now apply (proj2 (Forall_map Proposal.category (fun c => c <> []) _)).
    + rewrite E. constructor; [|exact IH]. simpl.
      apply truthy_nonempty. apply finalCategory_truthy.
  - rewrite (reachable_saved_current s Hs). exact IH.
Qed.

Lemma reachable_category_nonempty_witness :
  Forall (fun p => Proposal.category p <> []) (App.proposals both_signed).
Proof. exact (reachable_category_nonempty both_signed reachable_both_signed). Defined.

Lemma handlePostSubmit_io_written now s :
  handlePostSubmit_io true now s = handlePostSubmit now s.
Proof.
  unfold handlePostSubmit_io, handlePostSubmit.
  now destruct (App.isAIApproved s).
Qed.



(** ** The gate in reachable states *)

Lemma ADVICE_truthy (b : bool) : truthy (if b then ADVICE_OK else ADVICE_NG) = true.
Proof. now destruct b. Qed.

Lemma gate_inv_same s s' :
  App.inflight s' = App.inflight s ->
  App.aiAnalysis s' = App.aiAnalysis s ->
  App.isAIApproved s' = App.isAIApproved s ->
  App.postForm s' = App.postForm s ->
  gate_inv s -> gate_inv s'.
Proof.
  unfold gate_inv, inflight_valid, answered. intros -> -> -> ->. tauto.
Qed.

Lemma gate_inv_unanswered s :
  inflight_valid s -> App.isAIApproved s = false ->
  (forall a, ~ answered s a) -> gate_inv s.
Proof.
  intros Hq Ha Hn. split; [exact Hq|]. split.
  - intros a H. now apply Hn in H.
  - congruence.
Qed.

Lemma Forall_remove_nth {A} (P : A -> Prop) k l :
  Forall P l -> Forall P (firstn k l ++ skipn (S k) l).
Proof.
  intros H. revert k. induction H as [|x l Hx Hl IH]; intros k.
  - destruct k; constructor.
  - destruct k as [|k]; simpl; [exact Hl|]. constructor; [exact Hx | apply IH].
Qed.

Lemma gate_inv_resume result s :
  inflight_valid s -> gate_inv (handleAIAnalyze_resume result s).
Proof.
  intros Hq. unfold gate_inv, answered, inflight_valid. simpl.
  split; [exact Hq|]. split.
  - intros a [E _]. injection E as <-. simpl.
    apply truthy_nonempty. apply or_else_truthy. apply ADVICE_truthy.
  - intros Ha. rewrite Ha. eexists. split; [split; reflexivity|]. reflexivity.
Qed.

Lemma step_gate_inv s e : gate_inv s -> gate_inv (step s e).
Proof.
  intros H. pose proof H as [Hq [Hadv Happ]].
  destruct e; simpl;
    try (now apply (gate_inv_same s); [reflexivity..| exact H]).
  - (* handleInputChange *)
    apply gate_inv_unanswered; [exact Hq | reflexivity |].
    intros a [E _]. discriminate E.
  - (* handleAIAnalyze, up to the await *)
    unfold handleAIAnalyze_call.
    destruct (truthy (PostForm.title (App.postForm s))) eqn:Et;
      [|exact H].
    destruct (truthy (PostForm.content (App.postForm s))) eqn:Ec;
      [|exact H].
    simpl. apply gate_inv_unanswered; [|reflexivity|].
    + unfold inflight_valid. simpl. apply Forall_app. split; [exact Hq|].
      constructor; [|constructor]. simpl. split; now apply truthy_nonempty.
    + intros a [E L]. injection E as <-. discriminate L.
  - (* the answer *)
    unfold check_resolved. destruct (nth_error (App.inflight s) k); [|exact H].
    apply gate_inv_resume. unfold inflight_valid. simpl.
    now apply Forall_remove_nth.
  - (* handlePostSubmit *)
    unfold handlePostSubmit. destruct (App.isAIApproved s); [|exact H].
    simpl. apply gate_inv_unanswered; [exact Hq | reflexivity |].
    intros a [E _]. discriminate E.
  - (* toggleSignature *)
    unfold toggleSignature. destruct (App.user s); [|destruct confirmed];
      (now apply (gate_inv_same s); [reflexivity..| exact H]) || exact H.
Qed.

Lemma reachable_gate_inv s : reachable s -> gate_inv s.
Proof.
  assert (Hinit : forall saved t1 t2 t3 tsig, gate_inv (init saved t1 t2 t3 tsig)).
  { intros saved t1 t2 t3 tsig. apply gate_inv_unanswered.
    - destruct saved; constructor.
    - now destruct saved.
    - intros a [E _]. destruct saved; discriminate E. }
  induction 1 as [t1 t2 t3 tsig | s e Hs IH | s t1 t2 t3 tsig Hs IH].
  - apply Hinit.
  - now apply step_gate_inv.
  - apply Hinit.
Qed.

(** X6.  In every reachable state every check in flight was called with a
    non-empty title and a non-empty content: [handleAIAnalyze] calls the
    service only after its validation. *)
Theorem reachable_inflight_valid s :
  reachable s ->
  Forall (fun b => fst b <> [] /\ snd b <> []) (App.inflight s).
Proof. intros H. exact (proj1 (reachable_gate_inv s H)). Qed.

Lemma reachable_inflight_valid_witness :
  Forall (fun b => fst b <> [] /\ snd b <> [])
    (App.inflight (run first_start approved_with_pending)).
Proof.
  apply reachable_inflight_valid. apply reachable_run. apply reach_init.
Defined.

(** X7.  In every reachable state, once a check has been answered (an
    analysis is held and it is not loading) the advice shown is not empty:
    an answer without advice, or with an empty one, is shown with one of the
    two messages of [handleAIAnalyze]. *)
Theorem reachable_advice_nonempty s a :
  reachable s -> App.aiAnalysis s = Some a -> AiAnalysis.loading a = false ->
  AiAnalysis.advice a <> [].
Proof.
  intros H E L. exact (proj1 (proj2 (reachable_gate_inv s H)) a (conj E L)).
Qed.

Lemma reachable_advice_nonempty_witness :
  AiAnalysis.advice
    (AiAnalysis.mk ADVICE_OK false (Some (js "校則")) (Some [js "#校則"])) <> [].
Proof.
  apply (reachable_advice_nonempty (run first_start approved_with_pending)).
  - apply reachable_run. apply reach_init.
  - reflexivity.
  - reflexivity.
Defined.

(** X8.  In every reachable state in which the draft is approved, an
    answered analysis is held and its detected category is the category of
    the form: nothing but an approving answer sets the approval, and every
    edit withdraws it. *)
Theorem reachable_approved_answered s :
  reachable s -> App.isAIApproved s = true ->
  exists a,
    App.aiAnalysis s = Some a /\ AiAnalysis.loading a = false /\
    AiAnalysis.detectedCategory a = Some (PostForm.category (App.postForm s)).
Proof.
  intros H Ha. destruct (proj2 (proj2 (reachable_gate_inv s H)) Ha) as [a [[E L] C]].
  exists a. repeat split; assumption.
Qed.

Lemma reachable_approved_answered_witness :
  exists a,
    App.aiAnalysis (run first_start approved_with_pending) = Some a /\
    AiAnalysis.loading a = false /\
    AiAnalysis.detectedCategory a =
    Some (PostForm.category (App.postForm (run first_start approved_with_pending))).
Proof.
  apply reachable_approved_answered.
  - apply reachable_run. apply reach_init.
  - reflexivity.
Defined.



(** ** One toggle *)

Lemma others_remove_first u l :
  others u (remove_first (signed_by u) l) = others u l.
Proof.
  unfold others. induction l as [|x r IH]; simpl; [reflexivity|].
  destruct (signed_by u x) eqn:E; simpl; [reflexivity|].
  rewrite E. simpl. now rewrite IH.
Qed.

Lemma length_remove_first {A} (f : A -> bool) l :
  existsb f l = true -> S (length (remove_first f l)) = length l.
Proof.
  induction l as [|x r IH]; simpl; [discriminate|].
  destruct (f x); simpl; [reflexivity|]. intros H. now rewrite IH.
Qed.

Lemma toggle_one_toggled u now pid p : toggled u pid p (toggle_one u now pid p).
Proof.
  intros Hid Hnd. destruct (has_signed u p) eqn:Hs.
  - rewrite (toggle_one_signed u now pid p Hid Hs).
    unfold has_signed, signature_count. rewrite signatures_with_signatures.
    split; [|split].
    + apply (existsb_remove_first_once Signature.userId); [|exact Hnd].
      apply signed_by_same_id.
    + apply others_remove_first.
    + pose proof (length_remove_first (signed_by u) (Proposal.signatures p) Hs).
      lia.
  - rewrite (toggle_one_unsigned u now pid p Hid Hs).
    split; [apply has_signed_after_sign|].
    unfold signature_count. rewrite signatures_with_signatures. split.
    + unfold others. rewrite filter_app. simpl.
      unfold signed_by at 2. simpl. rewrite str_eqb_refl. simpl.
      apply app_nil_r.
    + rewrite length_app. simpl. lia.
Qed.

(** X10.  One call of [toggleSignature] by the logged-in user flips, in
    every proposal with the target id (in which nobody has signed twice),
    whether the user has signed, changes the number of signatures by one
    accordingly, and keeps the signatures of all other users, in their
    order. *)
Theorem toggleSignature_flips c now pid s u :
  App.user s = Some u ->
  Forall2 (toggled u pid)
    (App.proposals s) (App.proposals (toggleSignature c now pid s)).
Proof.
  intros Hu. unfold toggleSignature. rewrite Hu. simpl.
  apply Forall2_map_self. intros p. apply toggle_one_toggled.
Qed.

Lemma toggleSignature_flips_witness :
  App.user both_signed = Some alice /\
  Forall2 (toggled alice 1)
    (App.proposals both_signed)
    (App.proposals (toggleSignature false T1 1 both_signed)).
Proof.
  split; [reflexivity|].
  apply (toggleSignature_flips false T1 1 both_signed alice). reflexivity.
Defined.

(** ** Status updates *)

Lemma status_one_twice pid st1 r1 st2 r2 p :
  status_one pid st2 r2 (status_one pid st1 r1 p) = status_one pid st2 r2 p.
Proof.
  unfold status_one. destruct (Proposal.id p =? pid) eqn:E; simpl; now rewrite E.
Qed.

Lemma status_one_set pid st r p :
  Proposal.id p = pid ->
  Proposal.status (status_one pid st r p) = st /\
  Proposal.adminResponse (status_one pid st r p) = r.
Proof. intros <-. unfold status_one. rewrite Z.eqb_refl. split; reflexivity. Qed.

(** X11.  After [updateAdminStatus] every proposal with the target id has
    the new status and the new response; and of two updates of the same id
    in a row only the second one shows: the state is the one the second
    update alone gives. *)
Theorem updateAdminStatus_last_wins pid st1 r1 st2 r2 s :
  Forall (fun p => Proposal.id p = pid ->
                   Proposal.status p = st1 /\ Proposal.adminResponse p = r1)
    (App.proposals (updateAdminStatus pid st1 r1 s)) /\
  updateAdminStatus pid st2 r2 (updateAdminStatus pid st1 r1 s) =
  updateAdminStatus pid st2 r2 s.
Proof.
  split.
  - simpl. apply Forall_map. apply Forall_forall. intros p _ Hid.
    apply status_one_set. unfold status_one in Hid.
    now destruct (Proposal.id p =? pid).
  - unfold updateAdminStatus, App.set_proposals. simpl. rewrite map_map.
    rewrite (map_ext _ _ (status_one_twice pid st1 r1 st2 r2)). reflexivity.
Qed.

Lemma status_one_commute pid1 st1 r1 pid2 st2 r2 p :
  pid1 <> pid2 ->
  status_one pid1 st1 r1 (status_one pid2 st2 r2 p) =
  status_one pid2 st2 r2 (status_one pid1 st1 r1 p).
Proof.
  intros Hne. unfold status_one.
  destruct (Proposal.id p =? pid1) eqn:E1, (Proposal.id p =? pid2) eqn:E2;
    simpl; rewrite ?E1, ?E2; try reflexivity.
  apply Z.eqb_eq in E1, E2. congruence.
Qed.

Lemma toggle_status_commute u now pid pid' st r p :
  toggle_one u now pid (status_one pid' st r p) =
  status_one pid' st r (toggle_one u now pid p).
Proof.
  unfold status_one at 2. rewrite toggle_one_id.
  unfold status_one. destruct (Proposal.id p =? pid'); [|reflexivity].
  unfold toggle_one. simpl. destruct (Proposal.id p =? pid); [|reflexivity].
  now destruct (_ >=? 0).
Qed.

(** X12.  The order of two store operations does not matter when they are
    status updates of different ids, or a status update and a toggle (of any
    ids): both orders give the same state. *)
Theorem store_operations_commute pid1 st1 r1 pid2 st2 r2 c now pid s :
  (pid1 <> pid2 ->
   updateAdminStatus pid1 st1 r1 (updateAdminStatus pid2 st2 r2 s) =
   updateAdminStatus pid2 st2 r2 (updateAdminStatus pid1 st1 r1 s)) /\
  toggleSignature c now pid (updateAdminStatus pid1 st1 r1 s) =
  updateAdminStatus pid1 st1 r1 (toggleSignature c now pid s).
Proof.
  split.
  - intros Hne. unfold updateAdminStatus, App.set_proposals. simpl.
    rewrite !map_map.
    now rewrite (map_ext _ _ (fun p => status_one_commute pid1 st1 r1 pid2 st2 r2 p Hne)).
  - unfold toggleSignature, updateAdminStatus. simpl.
    destruct (App.user s) as [u|].
    + unfold App.set_proposals. simpl. rewrite !map_map.
      now rewrite (map_ext _ _ (fun p => toggle_status_commute u now pid pid1 st1 r1 p)).
    + now destruct c.
Qed.

Lemma store_operations_commute_witness :
  1 <> 2 /\
  updateAdminStatus 1 Resolved (js "done")
    (updateAdminStatus 2 UnderReview (js "looking") both_signed) =
  updateAdminStatus 2 UnderReview (js "looking")
    (updateAdminStatus 1 Resolved (js "done") both_signed).
Proof.
  split; [discriminate|].
  apply (proj1 (store_operations_commute 1 Resolved (js "done") 2 UnderReview
                  (js "looking") false T1 1 both_signed)).
  discriminate.
Defined.

(** ** The selected proposal and the status view *)

Lemma find_unique_id ps p :
  NoDup (ids ps) -> In p ps ->
  find (fun q => Proposal.id q =? Proposal.id p) ps = Some p.
Proof.
  induction ps as [|q r IH]; simpl; [tauto|]. intros Hnd Hin.
  inversion Hnd as [|? ? Hnin Hr]; subst.
  destruct Hin as [->|Hin]; [now rewrite Z.eqb_refl|].
  destruct (Z.eqb_spec (Proposal.id q) (Proposal.id p)) as [E|_]; [|now apply IH].
  exfalso. apply Hnin. rewrite E. now apply in_map.
Qed.

Lemma find_absent_id ps i :
  ~ In i (ids ps) -> find (fun q => Proposal.id q =? i) ps = None.
Proof.
  induction ps as [|q r IH]; simpl; [reflexivity|]. intros H.
  destruct (Z.eqb_spec (Proposal.id q) i) as [E|_]; [tauto|].
  apply IH. tauto.
Qed.

Lemma find_map_id (f : Proposal.t -> Proposal.t) ps i :
  (forall p, Proposal.id (f p) = Proposal.id p) ->
  find (fun q => Proposal.id q =? i) (map f ps) =
  option_map f (find (fun q => Proposal.id q =? i) ps).
Proof.
  intros Hf. induction ps as [|q r IH]; simpl; [reflexivity|].
  rewrite Hf. now destruct (Proposal.id q =? i).
Qed.

Lemma status_one_id pid st r p :
  Proposal.id (status_one pid st r p) = Proposal.id p.
Proof. unfold status_one. now destruct (Proposal.id p =? pid). Qed.

(** X13.  The detail view shows the proposal that was selected: in a
    reachable state [selectedProposal] finds, for the id of a proposal of the
    collection, that very proposal, and nothing for an id the collection does
    not have or when none is selected; after a status update of the selected
    id it finds the same proposal with the new status and response. *)
Theorem selectedProposal_found s :
  reachable s ->
  (forall p, In p (App.proposals s) ->
     selectedProposal (App.proposals s) (Some (Proposal.id p)) = Some p) /\
  (forall i, ~ In i (ids (App.proposals s)) ->
     selectedProposal (App.proposals s) (Some i) = None) /\
  selectedProposal (App.proposals s) None = None /\
  (forall p st r, In p (App.proposals s) ->
     selectedProposal
       (App.proposals (updateAdminStatus (Proposal.id p) st r s))
       (Some (Proposal.id p)) =
     Some (Proposal.with_status p st r)).
Proof.
  intros H. pose proof (reachable_NoDup_ids s H) as Hnd.
  split; [intros p Hp; now apply find_unique_id|].
  split; [intros i Hi; now apply find_absent_id|].
  split; [reflexivity|].
  intros p st r Hp. simpl.
  rewrite (find_map_id _ _ _ (status_one_id (Proposal.id p) st r)).
  rewrite (find_unique_id _ p Hnd Hp). simpl.
  unfold status_one. now rewrite Z.eqb_refl.
Qed.

Lemma selectedProposal_found_witness :
  selectedProposal (App.proposals both_signed) (Some 7) = None.
Proof.
  apply (proj1 (proj2 (selectedProposal_found both_signed reachable_both_signed))).
  simpl. intros [E|[E|[E|[]]]]; discriminate E.
Defined.

Lemma Status_eqb_eq a b : Status_eqb a b = true <-> a = b.
Proof. destruct a, b; simpl; split; congruence. Qed.

Lemma status_items_In ps st p :
  In p (status_items ps st) <-> In p ps /\ Proposal.status p = st.
Proof.
  unfold status_items. rewrite filter_In. now rewrite Status_eqb_eq.
Qed.

Lemma status_columns_perm ps :
  Permutation (flat_map snd (status_columns ps)) ps.
Proof.
  unfold status_columns, status_items. simpl. rewrite app_nil_r.
  induction ps as [|p r IH]; simpl; [constructor|].
  destruct (Proposal.status p); simpl.
  - now apply perm_skip.
  - apply Permutation_sym, Permutation_cons_app, Permutation_sym. exact IH.
  - apply Permutation_sym.
    rewrite app_assoc. apply Permutation_cons_app. rewrite <- app_assoc.
    apply Permutation_sym. exact IH.
  - apply Permutation_sym.
    rewrite !app_assoc. apply Permutation_cons_app. rewrite <- !app_assoc.
    apply Permutation_sym. exact IH.
Qed.

(** X14.  The status view loses and repeats nothing: its four columns, taken
    together, are a permutation of the collection; a proposal stands in the
    column of its own status and in no other; and the four counts add up to
    the number of proposals. *)
Theorem status_columns_partition ps :
  map fst (status_columns ps) = STATUS_STEPS /\
  Permutation (flat_map snd (status_columns ps)) ps /\
  (forall st p, In p (status_items ps st) <-> In p ps /\ Proposal.status p = st) /\
  (length (status_items ps Received) + length (status_items ps UnderReview) +
   length (status_items ps Coordinating) + length (status_items ps Resolved)
   = length ps)%nat.
Proof.
  split; [reflexivity|]. split; [apply status_columns_perm|].
  split; [intros st p; apply status_items_In|].
  rewrite <- (Permutation_length (status_columns_perm ps)).
  unfold status_columns. simpl. rewrite !length_app. simpl. lia.
Qed.

(** ** Announcements *)

Lemma nextId_exact x r :
  Forall safe_integer (x :: r) -> nextId (x :: r) = Math_max x r + 1.
Proof.
  intros H. unfold nextId, Number_add. apply round_double_exact.
  rewrite Forall_forall in H. specialize (H _ (Math_max_In x r)).
  unfold safe_integer in H. lia.
Qed.

Lemma nextId_above l i : Forall safe_integer l -> In i l -> i < nextId l.
Proof.
  destruct l as [|x r]; [simpl; tauto|]. intros Hs Hi.
  rewrite (nextId_exact x r Hs). destruct (Math_max_ge x r) as [H1 H2].
  destruct Hi as [Hi|Hi]; [subst; lia | specialize (H2 i Hi); lia].
Qed.

(** X15.  [handleNewsSubmit] puts in front of the announcements one item
    with the title and the content of the form; for ids that are safe
    integers its id is 1 when there was no item and otherwise one more than
    the largest id, so above every id, and pairwise different ids stay
    pairwise different.  The author is the name of the logged-in user when
    it is not empty, and "Admin" when the name is empty or nobody is logged
    in.  When the write to the storage returns, the new list is what is
    saved, the form is emptied and the modal closed; when it throws, the
    storage, the form and the modal are as they were. *)
Theorem handleNewsSubmit_adds w user now s :
  Forall safe_integer (map NewsItem.id (News.news s)) ->
  exists item,
    News.news (handleNewsSubmit w user now s) = item :: News.news s /\
    NewsItem.title item = NewsForm.title (News.newsForm s) /\
    NewsItem.content item = NewsForm.content (News.newsForm s) /\
    NewsItem.timestamp item = now /\
    (News.news s = [] -> NewsItem.id item = 1) /\
    (News.news s <> [] ->
     In (NewsItem.id item - 1) (map NewsItem.id (News.news s))) /\
    (forall i, In i (map NewsItem.id (News.news s)) -> i < NewsItem.id item) /\
    (forall u, user = Some u -> User.name u <> [] ->
               NewsItem.author item = User.name u) /\
    (forall u, user = Some u -> User.name u = [] ->
               NewsItem.author item = js "Admin") /\
    (user = None -> NewsItem.author item = js "Admin") /\
    (NoDup (map NewsItem.id (News.news s)) ->
     NoDup (map NewsItem.id (News.news (handleNewsSubmit w user now s)))) /\
    (w = true ->
     News.storage (handleNewsSubmit w user now s) =
       Some (News.news (handleNewsSubmit w user now s)) /\
     News.newsForm (handleNewsSubmit w user now s) = NewsForm.empty /\
     News.isNewsModalOpen (handleNewsSubmit w user now s) = false) /\
    (w = false ->
     News.storage (handleNewsSubmit w user now s) = News.storage s /\
     News.newsForm (handleNewsSubmit w user now s) = News.newsForm s /\
     News.isNewsModalOpen (handleNewsSubmit w user now s) = News.isNewsModalOpen s).
Proof.
  intros Hsafe.
  exists (NewsItem.mk (nextId (map NewsItem.id (News.news s)))
            (NewsForm.title (News.newsForm s)) (NewsForm.content (News.newsForm s))
            now (news_author user)).
  assert (Hnews : News.news (handleNewsSubmit w user now s) =
                  NewsItem.mk (nextId (map NewsItem.id (News.news s)))
                    (NewsForm.title (News.newsForm s))
                    (NewsForm.content (News.newsForm s)) now (news_author user)
                  :: News.news s)
    by (unfold handleNewsSubmit; now destruct w).
  split; [exact Hnews|]. cbn [NewsItem.title NewsItem.content NewsItem.timestamp
                           NewsItem.id NewsItem.author].
  split; [reflexivity|]. split; [reflexivity|]. split; [reflexivity|].
  split; [intros E; now rewrite E|].
  split.
  { intros Hne. destruct (map NewsItem.id (News.news s)) as [|x r] eqn:E.
    - destruct (News.news s); [congruence | discriminate E].
    - rewrite (nextId_exact x r Hsafe).
      replace (Math_max x r + 1 - 1) with (Math_max x r) by lia.
      apply Math_max_In. }
  split; [intros i Hi; now apply nextId_above|].
  split.
  { intros u -> Hn. unfold news_author. simpl.
    destruct (User.name u); [congruence | reflexivity]. }
  split.
  { intros u -> Hn. unfold news_author. simpl. now rewrite Hn. }
  split; [intros ->; reflexivity|].
  split.
  { intros Hnd. rewrite Hnews. simpl. constructor; [|exact Hnd].
    intros Hin. apply (nextId_above _ _ Hsafe) in Hin. lia. }
  split; intros ->; repeat split.
Qed.

Lemma handleNewsSubmit_adds_witness :
  Forall safe_integer
    (map NewsItem.id [NewsItem.mk 1 (js "A") (js "B") T0 (js "生徒会")]) /\
  map (fun n => (NewsItem.id n, NewsItem.author n))
    (News.news
       (handleNewsSubmit true (Some alice) T1
          (News.mk [NewsItem.mk 1 (js "A") (js "B") T0 (js "生徒会")]
             (NewsForm.mk (js "T") (js "C")) true None))) =
  [(2, js "Alice"); (1, js "生徒会")].
Proof.
  assert (Hsafe : Forall safe_integer
            (map NewsItem.id [NewsItem.mk 1 (js "A") (js "B") T0 (js "生徒会")])).
  { repeat constructor. unfold safe_integer, MAX_SAFE_INTEGER. simpl. lia. }
  split; [exact Hsafe|].
  destruct (handleNewsSubmit_adds true (Some alice) T1
              (News.mk [NewsItem.mk 1 (js "A") (js "B") T0 (js "生徒会")]
                 (NewsForm.mk (js "T") (js "C")) true None) Hsafe)
    as [item [E [_ [_ [_ [_ [Hid [_ [Hau _]]]]]]]]].
  rewrite E. simpl. f_equal. f_equal.
  - assert (H : In (NewsItem.id item - 1) [1]) by (apply Hid; discriminate).
    simpl in H. lia.
  - rewrite (Hau alice eq_refl); [reflexivity | discriminate].
Defined.

(** ** Logging in *)

Lemma startsWith_spec sub : forall s,
  startsWith s sub = true <-> exists post, s = sub ++ post.
Proof.
  induction sub as [|a sub IH]; intros s; simpl.
  - split; [intros _; now exists s | intros _; now destruct s].
  - destruct s as [|b s]; simpl.
    + split; [discriminate | intros [post E]; discriminate E].
    + rewrite andb_true_iff, N.eqb_eq, IH. split.
      * intros [-> [post ->]]. now exists post.
      * intros [post E]. injection E as -> ->. split; [reflexivity | now exists post].
Qed.

Lemma includes_spec sub s : includes s sub = true <-> occurs_in sub s.
Proof.
  unfold occurs_in. induction s as [|c s IH].
  - cbn [includes]. rewrite orb_false_r, startsWith_spec. split.
    + intros [post E]. now exists [], post.
    + intros [pre [post E]]. destruct pre; [now exists post | discriminate E].
  - cbn [includes]. rewrite orb_true_iff, startsWith_spec, IH. split.
    + intros [[post E]|[pre [post E]]].
      * now exists [], post.
      * exists (c :: pre), post. simpl. now rewrite E.
    + intros [pre [post E]]. destruct pre as [|d pre].
      * left. now exists post.
      * right. injection E as -> E. now exists pre, post.
Qed.

(** X16.  [handleLogin] does nothing when the email is empty; otherwise it
    logs in a user whose id is the email and goes to the home view, whatever
    the password is, and the user is an administrator exactly when "admin"
    occurs in the email or the email is "student-council".  [handleRegister]
    always logs in a student. *)
Theorem handleLogin_role form s :
  (LoginForm.email form = [] -> handleLogin form s = s) /\
  (LoginForm.email form <> [] ->
   exists u,
     handleLogin form s = set_user s (Some u) v_home /\
     User.id u = LoginForm.email form /\
     (User.role u = admin <->
      occurs_in (js "admin") (LoginForm.email form) \/
      LoginForm.email form = js "student-council")) /\
  (forall reg, exists u,
     App.user (handleRegister reg s) = Some u /\ User.role u = student).
Proof.
  split; [|split].
  - intros E. unfold handleLogin. now rewrite E.
  - intros Hne. unfold handleLogin.
    assert (Ht : truthy (LoginForm.email form) = true) by now apply truthy_nonempty.
    rewrite Ht.
    eexists. split; [reflexivity|]. split; [reflexivity|]. cbn [User.role].
    rewrite <- includes_spec, <- str_eqb_eq, <- orb_true_iff.
    destruct (includes _ _ || str_eqb _ _); split; congruence.
  - intros reg. eexists. split; reflexivity.
Qed.

Lemma handleLogin_role_witness :
  LoginForm.email (LoginForm.mk (js "my-admin@example.com") (js "wrong")) <> [] /\
  exists u,
    handleLogin (LoginForm.mk (js "my-admin@example.com") (js "wrong")) first_start =
    set_user first_start (Some u) v_home /\
    User.role u = admin.
Proof.
  assert (H : LoginForm.email (LoginForm.mk (js "my-admin@example.com") (js "wrong")) <> [])
    by discriminate.
  split; [exact H|].
  destruct (proj1 (proj2 (handleLogin_role
                            (LoginForm.mk (js "my-admin@example.com") (js "wrong"))
                            first_start)) H) as [u [E [_ Hrole]]].
  exists u. split; [exact E|]. apply Hrole. left.
  apply (proj1 (includes_spec _ _)). reflexivity.
Defined.

(** ** The moderation client, when it approves *)

(** X17.  [analyzeProposal] hands on what the service answered and adds no
    approval of its own: an answer with a non-empty text that parses is
    returned as it is, and a returned verdict that approves is always the
    parsed text of such an answer. *)
Theorem analyzeProposal_approval_origin prompt gen parse title content r :
  (forall text,
     gen (Request.mk MODEL (prompt title content)) = Return (Response.mk (Some text)) ->
     text <> [] -> parse text = Return r ->
     analyzeProposal prompt gen parse title content = Return r) /\
  (analyzeProposal prompt gen parse title content = Return r ->
   AIAnalysisResult.isAppropriate r = true ->
   exists text,
     gen (Request.mk MODEL (prompt title content)) = Return (Response.mk (Some text)) /\
     text <> [] /\ parse text = Return r).
Proof.
  unfold analyzeProposal, try_catch, bind. split.
  - intros text Hg Ht Hp. rewrite Hg. simpl.
    apply truthy_nonempty in Ht. rewrite Ht. simpl. now rewrite Hp.
  - destruct (gen _) as [[[text|]]|e]; simpl.
    + destruct (truthy text) eqn:Ht; simpl.
      * destruct (parse text) as [r'|e] eqn:Hp.
        -- intros E _. injection E as <-. exists text.
           repeat split; [now apply truthy_nonempty | exact Hp].
        -- intros E Ha. injection E as <-. discriminate Ha.
      * intros E Ha. injection E as <-. discriminate Ha.
    + intros E Ha. injection E as <-. discriminate Ha.
    + intros E Ha. injection E as <-. discriminate Ha.
Qed.

Lemma analyzeProposal_approval_origin_witness :
  analyzeProposal (fun t c => t ++ c)
    (fun _ => Return (Response.mk (Some (js "{...}"))))
    (fun _ => Return verdict_ok) (js "T") (js "C") = Return verdict_ok.
Proof.
  apply (proj1 (analyzeProposal_approval_origin (fun t c => t ++ c)
                  (fun _ => Return (Response.mk (Some (js "{...}"))))
                  (fun _ => Return verdict_ok) (js "T") (js "C") verdict_ok)
           (js "{...}")).
  - reflexivity.
  - discriminate.
  - reflexivity.
Defined.

(** ** More on the tags *)

Lemma tokens_of_shaped s l : tokens_of s l -> Forall tag_shaped l.
Proof.
  induction 1 as [|c s l Hns Hs IH|c body rest l Hc Hne Hb Hr Hs IH].
  - constructor.
  - exact IH.
  - constructor; [|exact IH]. exists c, body. repeat split; assumption.
Qed.

Lemma all_tokens_shaped ps : Forall tag_shaped (all_tokens ps).
Proof.
  unfold all_tokens. induction ps as [|p r IH]; simpl; [constructor|].
  apply Forall_app. split; [|exact IH].
  apply (tokens_of_shaped (Proposal.content p)). apply match_all_tokens.
Qed.

(** X18.  Every tag that [trendingTags] returns, and every key of [counts],
    is a marker followed by one or more code units none of which is a space
    (so that no key is an array index). *)
Theorem trendingTags_shaped ps :
  Forall tag_shaped (keys (tag_counts ps)) /\
  Forall tag_shaped (keys (trendingTags ps)).
Proof.
  assert (H : Forall tag_shaped (keys (tag_counts ps))).
  { apply Forall_forall. intros t Ht. unfold keys in Ht.
    apply in_map_iff in Ht. destruct Ht as [[t' n] [<- Hin]].
    apply tag_counts_In in Hin. destruct Hin as [Hin _].
    pose proof (all_tokens_shaped ps) as Hs. rewrite Forall_forall in Hs.
    now apply Hs. }
  split; [exact H|].
  apply Forall_forall. intros t Ht. unfold keys in Ht.
  apply in_map_iff in Ht. destruct Ht as [e [<- Hin]].
  apply trendingTags_In in Hin. rewrite Forall_forall in H. apply H.
  unfold keys. now apply in_map.
Qed.

Lemma total_count_tag cs t : total (count_tag cs t) = total cs + 1.
Proof.
  unfold count_tag, total. induction cs as [|[k w] r IH]; simpl; [reflexivity|].
  destruct (str_eqb k t) eqn:E; simpl.
  - destruct (Z.eqb_spec w 0); lia.
  - rewrite IH. lia.
Qed.

Lemma total_fold toks : forall cs,
  total (fold_left count_tag toks cs) = total cs + Z.of_nat (length toks).
Proof.
  induction toks as [|t r IH]; intros cs; simpl fold_left.
  - simpl. lia.
  - rewrite IH, total_count_tag. simpl length. lia.
Qed.

(** X19.  The counts add up to the number of tokens found in all contents:
    every occurrence of a tag is counted once. *)
Theorem tag_counts_total ps :
  total (tag_counts ps) = Z.of_nat (length (all_tokens ps)).
Proof. rewrite tag_counts_eq, total_fold. reflexivity. Qed.

Lemma Permutation_flat_map_l {A B} (f : A -> list B) l l' :
  Permutation l l' -> Permutation (flat_map f l) (flat_map f l').
Proof.
  induction 1 as [|x l l' H IH|x y l|l l' l'' H1 IH1 H2 IH2]; simpl.
  - constructor.
  - now apply Permutation_app_head.
  - rewrite !app_assoc. apply Permutation_app_tail. apply Permutation_app_comm.
  - now transitivity (flat_map f l').
Qed.

Lemma NoDup_keys_NoDup (cs : Counts) : NoDup (keys cs) -> NoDup cs.
Proof. apply NoDup_map_inv. Qed.

Lemma tag_counts_perm ps ps' :
  Permutation ps ps' -> Permutation (tag_counts ps) (tag_counts ps').
Proof.
  intros H.
  assert (Ht : Permutation (all_tokens ps) (all_tokens ps'))
    by now apply Permutation_flat_map_l.
  apply NoDup_Permutation.
  - apply NoDup_keys_NoDup, tag_counts_keys.
  - apply NoDup_keys_NoDup, tag_counts_keys.
  - intros [t n]. rewrite !tag_counts_In. unfold occurrences.
    rewrite (proj1 (Permutation_count_occ (list_eq_dec N.eq_dec) _ _) Ht t).
    split; intros [Hin E]; (split; [|exact E]).
    + now apply (Permutation_in _ Ht).
    + now apply (Permutation_in _ (Permutation_sym Ht)).
Qed.

Lemma StronglySorted_map_snd (l : list (jsstring * Z)) :
  StronglySorted (not_below snd) l ->
  StronglySorted (fun a b => b <= a) (map snd l).
Proof.
  induction 1 as [|e r Hr IH Hf]; simpl; constructor; [exact IH|].
  apply Forall_map. exact Hf.
Qed.

(** Two non-increasing lists of integers with the same elements are equal. *)
Lemma sorted_perm_eq (l l' : list Z) :
  StronglySorted (fun a b => b <= a) l ->
  StronglySorted (fun a b => b <= a) l' ->
  Permutation l l' -> l = l'.
Proof.
  intros Hl. revert l'. induction Hl as [|a l Hs IH Hf]; intros l' Hl' Hp.
  - now apply Permutation_nil in Hp.
  - destruct l' as [|b l'']; [now apply Permutation_sym, Permutation_nil in Hp|].
    inversion Hl' as [|? ? Hs' Hf']; subst.
    assert (E : a = b).
    { rewrite Forall_forall in Hf, Hf'.
      assert (Ha : In a (b :: l'')) by (apply (Permutation_in _ Hp); now left).
      assert (Hb : In b (a :: l))
        by (apply (Permutation_in _ (Permutation_sym Hp)); now left).
      destruct Ha as [Ha|Ha]; [congruence|].
      destruct Hb as [Hb|Hb]; [congruence|].
      specialize (Hf b Hb). specialize (Hf' a Ha). lia. }
    subst b. f_equal. apply IH; [exact Hs'|].
    now apply Permutation_cons_inv in Hp.
Qed.

(** X20.  The order in which the proposals are scanned matters to
    [trendingTags] only among tags of equal count: for two orders of the same
    proposals every tag has the same count, and the counts returned, in
    their order, are the same. *)
Theorem trendingTags_scan_order ps ps' :
  Permutation ps ps' ->
  (forall t n, In (t, n) (tag_counts ps) <-> In (t, n) (tag_counts ps')) /\
  map snd (trendingTags ps) = map snd (trendingTags ps').
Proof.
  intros H. pose proof (tag_counts_perm ps ps' H) as Hc. split.
  - intros t n. split; intros Hin.
    + now apply (Permutation_in _ Hc).
    + now apply (Permutation_in _ (Permutation_sym Hc)).
  - unfold trendingTags. rewrite <- !firstn_map. f_equal.
    apply sorted_perm_eq.
    + apply StronglySorted_map_snd. apply (Array_sort_sorted snd).
    + apply StronglySorted_map_snd. apply (Array_sort_sorted snd).
    + apply Permutation_map.
      rewrite <- (Array_sort_perm snd (tag_counts ps)).
      rewrite <- (Array_sort_perm snd (tag_counts ps')). exact Hc.
Qed.

Lemma trendingTags_scan_order_witness :
  map snd (trendingTags
             [Proposal.mk 1 [] (js "#a #a #b") [] Received [] [] [];
              Proposal.mk 2 [] (js "#a #c") [] Received [] [] []]) =
  map snd (trendingTags
             [Proposal.mk 2 [] (js "#a #c") [] Received [] [] [];
              Proposal.mk 1 [] (js "#a #a #b") [] Received [] [] []]).
Proof.
  apply (proj2 (trendingTags_scan_order _ _ (perm_swap _ _ []))).
Defined.

(** ** The filters *)

(** X21.  [filteredProposals] shows, in either order, exactly the proposals
    of the collection that pass both filters: the category filter is "all"
    or the category of the proposal, and the search term is empty or its
    lower-case form occurs in the lower-case title or content. *)
Theorem filteredProposals_shows getTime toLowerCase ps cat term order p :
  In p (filteredProposals getTime toLowerCase ps cat term order) <->
  In p ps /\ shown toLowerCase cat term p.
Proof.
  rewrite filteredProposals_eq.
  assert (Hv : visible toLowerCase cat term p = true <-> shown toLowerCase cat term p).
  { unfold visible, shown. rewrite andb_true_iff.
    assert (H1 : (if negb (str_eqb cat ALL)
                  then str_eqb (Proposal.category p) cat else true) = true <->
                 cat = ALL \/ Proposal.category p = cat).
    { destruct (str_eqb cat ALL) eqn:E; simpl.
      - apply str_eqb_eq in E. tauto.
      - apply str_eqb_neq in E. rewrite str_eqb_eq. tauto. }
    assert (H2 : (if truthy term
                  then includes (toLowerCase (Proposal.title p)) (toLowerCase term) ||
                       includes (toLowerCase (Proposal.content p)) (toLowerCase term)
                  else true) = true <->
                 term = [] \/
                 occurs_in (toLowerCase term) (toLowerCase (Proposal.title p)) \/
                 occurs_in (toLowerCase term) (toLowerCase (Proposal.content p))).
    { rewrite <- !includes_spec. destruct term as [|c r]; simpl.
      - tauto.
      - rewrite orb_true_iff. split; [tauto|]. intros [E|E]; [discriminate E | exact E]. }
    now rewrite H1, H2. }
  rewrite <- Hv, <- filter_In.
  destruct order.
  - split; intros H.
    + exact (Permutation_in _ (Permutation_sym (Array_sort_perm (created getTime) _)) H).
    + exact (Permutation_in _ (Array_sort_perm (created getTime) _) H).
  - split; intros H.
    + exact (Permutation_in _ (Permutation_sym (Array_sort_perm signature_count _)) H).
    + exact (Permutation_in _ (Array_sort_perm signature_count _) H).
Qed.
